(** * Legal Demystifier backend: the structured-output extractor and the
      risk-scoring engine

    A shallow embedding of [backend/app/utils.py] ([safe_parse_json],
    [make_clause_provenance]), [backend/app/risk_engine.py]
    ([rule_score_for_clause], [combined_score]), [backend/app/rag_client.py]
    ([VertexRAGClient.summarize_document], [VertexRAGClient.query_rag]) and
    [backend/app/routes/query.py] ([query_doc]), with the properties the
    specification states about them and further properties of the code.

    Conventions of the embedding:
    - a Python [str] is a sequence of Unicode code points, [list N];
    - a Python [float] is an IEEE 754 binary64 number, Rocq's primitive
      [float], with Python's comparison-based [min] and [max];
    - a Python exception is an explicit [Raise] outcome, and
      [try: ... except Exception: ...] is [try_except];
    - the objects [json.loads] builds (dict, list, str, int, float, bool,
      None) are the values of [pyval]; a dict keeps its insertion order;
    - logging is left out: it writes diagnostics and changes no result.

    The decoder [json_loads] follows CPython's [json] scanner (strict mode,
    default hooks) and the encoder [json_dumps] its default encoder.  Two
    limits of the interpreter are not modelled: the recursion limit on
    nesting depth and the limit on the number of digits of an integer
    literal.  Both surface as exceptions that the handlers of
    [safe_parse_json] absorb like any other.  The conversion [float] of a
    string follows CPython 3.11, whose Unicode database (14.0) decides the
    decimal digits and the white space of scripts beyond ASCII.

    Part one gives the definitions, in the order of the source files; part
    two the properties: the risk engine, the scanner, the extractor, the
    summarization pipeline, serialization read back, and then provenance
    records, further properties of the rule score, the risk category, the
    extractor and the summary, and the answer to a question. *)

From Stdlib Require Import List String Ascii ZArith NArith Bool Lia Floats.
From Stdlib Require Import DecimalN DecimalPos DecimalFacts.
Import ListNotations.

Set Warnings "-inexact-float,-register-all".

(** ** Python strings *)

Definition str := list N.

Fixpoint str_of (s : string) : str :=
  match s with
  | EmptyString => []
  | String a s' => N_of_ascii a :: str_of s'
  end.

(** JSON source text is written with an apostrophe where the text has a
    double quote (code point 34). *)
Definition jtext (s : string) : str :=
  map (fun c => if (c =? 39)%N then 34%N else c) (str_of s).

Fixpoint str_eqb (a b : str) : bool :=
  match a, b with
  | [], [] => true
  | x :: a', y :: b' => (x =? y)%N && str_eqb a' b'
  | _, _ => false
  end.

(** [str.lower()] on the ASCII letters.  The keyword patterns below are
    ASCII only, and no code point outside ASCII lower-cases to a string
    that lets one of them match where it did not. *)
Definition lower_char (c : N) : N :=
  if ((65 <=? c) && (c <=? 90))%N then (c + 32)%N else c.

Definition lower (s : str) : str := map lower_char s.

(** [s.index(c)]: position of the first occurrence, if any. *)
Fixpoint index (c : N) (s : str) : option nat :=
  match s with
  | [] => None
  | x :: s' => if (x =? c)%N then Some 0%nat else option_map S (index c s')
  end.

(** [s.rindex(c)]: position of the last occurrence, if any. *)
Fixpoint rindex (c : N) (s : str) : option nat :=
  match s with
  | [] => None
  | x :: s' =>
      match rindex c s' with
      | Some i => Some (S i)
      | None => if (x =? c)%N then Some 0%nat else None
      end
  end.

(** [s[start:stop]] for non-negative bounds: empty when [stop <= start]. *)
Definition slice (s : str) (start stop : nat) : str :=
  firstn (stop - start) (skipn start s).

(** ** Python floats *)

(** [min(a, b)] and [max(a, b)] of two arguments: the first argument is
    kept unless the second compares strictly smaller (greater). *)
Definition py_min (a b : float) : float := if (b <? a)%float then b else a.

(** A small non-negative integer as a float (exact below 2^53). *)
Definition Z2F (z : Z) : float := of_uint63 (Uint63.of_Z z).

(** The float nearest to [p / q] for positive [p] and [q], ties to even:
    the quotient is taken with 64 significant bits and a sticky bit. *)
Definition float_of_ratio (neg : bool) (p q : Z) : float :=
  let k := (Z.log2 q - Z.log2 p + 64)%Z in
  let num := (p * 2 ^ Z.max k 0)%Z in
  let den := (q * 2 ^ Z.max (- k) 0)%Z in
  let sticky := if (num mod den =? 0)%Z then 0%Z else 1%Z in
  let m := (2 * (num / den) + sticky)%Z in
  SF2Prim (binary_normalize prec emax (if neg then (- m)%Z else m) (- k - 1) false).

(** The float nearest to [(-1)^neg * d * 10^e]. *)
Definition float_of_decimal (neg : bool) (d : N) (e : Z) : float :=
  if (d =? 0)%N then SF2Prim (S754_zero neg)
  else if (0 <=? e)%Z then float_of_ratio neg (Z.of_N d * 10 ^ e) 1
  else float_of_ratio neg (Z.of_N d) (10 ^ (- e)).

(** ** Exceptions *)

Inductive exn : Type :=
| JSONDecodeError
| ValueError
| TypeError
| AttributeError
| OverflowError.

Inductive outcome (A : Type) : Type :=
| Return (a : A)
| Raise (e : exn).

Arguments Return {A} a.
Arguments Raise {A} e.

Definition bind {A B : Type} (m : outcome A) (k : A -> outcome B) : outcome B :=
  match m with
  | Return a => k a
  | Raise e => Raise e
  end.

Notation "x <- m ;; k" := (bind m (fun x => k))
  (at level 61, m at next level, right associativity).

(** [try: body except Exception: handler]: every exception of [exn] is an
    [Exception]. *)
Definition try_except {A : Type} (body : outcome A) (handler : exn -> outcome A)
  : outcome A :=
  match body with
  | Return a => Return a
  | Raise e => handler e
  end.

(** ** Regular expressions of the keyword table *)

Module Re.

Inductive regex : Type :=
| Eps
| Chr (c : N)
| Cat (r1 r2 : regex)
| Alt (r1 r2 : regex)
| Opt (r : regex).

Fixpoint lit_chars (s : str) : regex :=
  match s with
  | [] => Eps
  | c :: s' => Cat (Chr c) (lit_chars s')
  end.

Definition lit (s : string) : regex := lit_chars (str_of s).

(** Backtracking match of [r] at the head of [s], then [k] on the rest. *)
Fixpoint rmatch (r : regex) (s : str) (k : str -> bool) : bool :=
  match r with
  | Eps => k s
  | Chr c => match s with
             | x :: s' => (x =? c)%N && k s'
             | [] => false
             end
  | Cat r1 r2 => rmatch r1 s (fun s' => rmatch r2 s' k)
  | Alt r1 r2 => rmatch r1 s k || rmatch r2 s k
  | Opt r1 => rmatch r1 s k || k s
  end.

Definition match_here (r : regex) (s : str) : bool := rmatch r s (fun _ => true).

(** [re.search(r, s)] as a truth value: [r] matches at some position. *)
Fixpoint search (r : regex) (s : str) : bool :=
  match_here r s ||
  match s with
  | [] => false
  | _ :: s' => search r s'
  end.

End Re.

(** ** risk_engine.py *)

Inductive severity := high | medium.

Definition RISK_KEYWORDS (sev : severity) : list Re.regex :=
  match sev with
  | high =>
      [ Re.Cat (Re.lit "penalt") (Re.Alt (Re.lit "y") (Re.lit "ies"));
        Re.lit "indemnif";
        Re.lit "liabilit";
        Re.lit "arbitration";
        Re.lit "waiv";
        Re.lit "class action waiver" ]
  | medium =>
      [ Re.lit "early termination fee";
        Re.lit "renewal";
        Re.Cat (Re.lit "auto") (Re.Cat (Re.Opt (Re.lit "-")) (Re.lit "renew"));
        Re.lit "late fee";
        Re.lit "governing law" ]
  end.

Definition rule_score_for_clause (text : str) : float :=
  let score := 0%float in
  let t := lower text in
  let score :=
    fold_left (fun score kw => if Re.search kw t then (score + 40)%float else score)
              (RISK_KEYWORDS high) score in
  let score :=
    fold_left (fun score kw => if Re.search kw t then (score + 15)%float else score)
              (RISK_KEYWORDS medium) score in
  py_min 100 score.



(** The rule score as the specification words it: 40 points per matching
    high-severity pattern, 15 per matching medium-severity pattern, capped
    at 100. *)
Definition count_matches (sev : severity) (t : str) : Z :=
  Z.of_nat (List.length (filter (fun kw => Re.search kw t) (RISK_KEYWORDS sev))).

Definition rule_score_spec (text : str) : Z :=
  Z.min 100 (40 * count_matches high (lower text)
             + 15 * count_matches medium (lower text)).


Definition clause_indemnity : str :=
  str_of "This agreement includes an indemnification clause and binding arbitration.".

Definition clause_weather : str :=
  str_of "This is a plain sentence about weather.".

(** ** The objects of [json.loads] *)

Inductive pyval : Type :=
| PyNone
| PyBool (b : bool)
| PyInt (z : Z)
| PyFloat (f : float)
| PyStr (s : str)
| PyList (l : list pyval)
| PyDict (d : list (str * pyval)).

(** [d.get(k)] on the items of a dict. *)
Fixpoint dict_get (k : str) (d : list (str * pyval)) : option pyval :=
  match d with
  | [] => None
  | (k', v) :: d' => if str_eqb k k' then Some v else dict_get k d'
  end.

(** [d[k] = v]: an existing key keeps its place, a new key goes last. *)
Fixpoint dict_set (k : str) (v : pyval) (d : list (str * pyval))
  : list (str * pyval) :=
  match d with
  | [] => [(k, v)]
  | (k', v') :: d' =>
      if str_eqb k k' then (k, v) :: d' else (k', v') :: dict_set k v d'
  end.

(** ** The JSON scanner *)

Module Json.

Definition QUOTE : N := 34.
Definition BACKSLASH : N := 92.
Definition LBRACE : N := 123.
Definition RBRACE : N := 125.
Definition LBRACKET : N := 91.
Definition RBRACKET : N := 93.
Definition COMMA : N := 44.
Definition COLON : N := 58.
Definition MINUS : N := 45.
Definition PLUS : N := 43.
Definition DOT : N := 46.

(** The four characters of [WHITESPACE]: space, tab, line feed, carriage
    return. *)
Definition is_ws (c : N) : bool :=
  ((c =? 32) || (c =? 9) || (c =? 10) || (c =? 13))%N.

Fixpoint skip_ws (s : str) : str :=
  match s with
  | c :: s' => if is_ws c then skip_ws s' else s
  | [] => []
  end.

(** [starts_with p s]: the rest of [s] after the prefix [p]. *)
Fixpoint starts_with (p s : str) : option str :=
  match p, s with
  | [], _ => Some s
  | x :: p', y :: s' => if (x =? y)%N then starts_with p' s' else None
  | _ :: _, [] => None
  end.

Definition is_digit (c : N) : bool := ((48 <=? c) && (c <=? 57))%N.

Definition hex_value (c : N) : option N :=
  if is_digit c then Some (c - 48)%N
  else if ((97 <=? c) && (c <=? 102))%N then Some (c - 87)%N
  else if ((65 <=? c) && (c <=? 70))%N then Some (c - 55)%N
  else None.

(** The four hexadecimal digits of a [\uXXXX] escape. *)
Definition hex4 (a b c d : N) : option N :=
  match hex_value a, hex_value b, hex_value c, hex_value d with
  | Some x3, Some x2, Some x1, Some x0 =>
      Some (((x3 * 16 + x2) * 16 + x1) * 16 + x0)%N
  | _, _, _, _ => None
  end.

Definition is_high_surrogate (c : N) : bool := ((55296 <=? c) && (c <=? 56319))%N.
Definition is_low_surrogate (c : N) : bool := ((56320 <=? c) && (c <=? 57343))%N.

Definition join_surrogates (hi lo : N) : N :=
  (65536 + ((hi - 55296) * 1024 + (lo - 56320)))%N.

(** The character a one-letter escape stands for: quote, backslash and
    slash stand for themselves, then [b], [f], [n], [r], [t]. *)
Definition simple_escape (c : N) : option N :=
  if (c =? 34)%N then Some 34%N
  else if (c =? 92)%N then Some 92%N
  else if (c =? 47)%N then Some 47%N
  else if (c =? 98)%N then Some 8%N
  else if (c =? 102)%N then Some 12%N
  else if (c =? 110)%N then Some 10%N
  else if (c =? 114)%N then Some 13%N
  else if (c =? 116)%N then Some 9%N
  else None.

(** [scanstring] after the opening quote, in strict mode: the decoded
    string (accumulated in reverse) and the text after the closing quote. *)
Fixpoint scanstring (s : str) (acc : str) : option (str * str) :=
  match s with
  | [] => None
  | c :: s1 =>
      if (c =? QUOTE)%N then Some (rev acc, s1)
      else if (c =? BACKSLASH)%N then
        match s1 with
        | [] => None
        | e :: s2 =>
            if (e =? 117)%N then
              match s2 with
              | h1 :: h2 :: h3 :: h4 :: s6 =>
                  match hex4 h1 h2 h3 h4 with
                  | None => None
                  | Some uni =>
                      if is_high_surrogate uni then
                        match s6 with
                        | b :: u :: g1 :: g2 :: g3 :: g4 :: s12 =>
                            if ((b =? BACKSLASH) && (u =? 117))%N then
                              match hex4 g1 g2 g3 g4 with
                              | None => None
                              | Some uni2 =>
                                  if is_low_surrogate uni2
                                  then scanstring s12 (join_surrogates uni uni2 :: acc)
                                  else scanstring s6 (uni :: acc)
                              end
                            else scanstring s6 (uni :: acc)
                        | _ => scanstring s6 (uni :: acc)
                        end
                      else scanstring s6 (uni :: acc)
                  end
              | _ => None
              end
            else
              match simple_escape e with
              | Some ch => scanstring s2 (ch :: acc)
              | None => None
              end
        end
      else if (c <? 32)%N then None
      else scanstring s1 (c :: acc)
  end.

Fixpoint take_digits (s : str) : str * str :=
  match s with
  | c :: s' =>
      if is_digit c then let (d, r) := take_digits s' in (c :: d, r) else ([], s)
  | [] => ([], [])
  end.

Definition digit_cons (c : N) (u : Decimal.uint) : Decimal.uint :=
  match (c - 48)%N with
  | 0%N => Decimal.D0 u
  | 1%N => Decimal.D1 u
  | 2%N => Decimal.D2 u
  | 3%N => Decimal.D3 u
  | 4%N => Decimal.D4 u
  | 5%N => Decimal.D5 u
  | 6%N => Decimal.D6 u
  | 7%N => Decimal.D7 u
  | 8%N => Decimal.D8 u
  | _ => Decimal.D9 u
  end.

Fixpoint uint_of_digits (ds : str) : Decimal.uint :=
  match ds with
  | [] => Decimal.Nil
  | c :: ds' => digit_cons c (uint_of_digits ds')
  end.

(** The number a string of decimal digits denotes. *)
Definition decimal_value (ds : str) : N := N.of_uint (uint_of_digits ds).

(** [int(lexeme)] of an integer literal. *)
Definition int_of_literal (neg : bool) (ds : str) : Z :=
  if neg then (- Z.of_N (decimal_value ds))%Z else Z.of_N (decimal_value ds).

(** [float(lexeme)] of a literal with a fraction or an exponent: the
    nearest float to its decimal value. *)
Definition float_of_literal (neg : bool) (idig fdig : str)
           (exp : option (bool * str)) : float :=
  let e := match exp with
           | None => 0%Z
           | Some (eneg, eds) => int_of_literal eneg eds
           end in
  float_of_decimal neg (decimal_value (idig ++ fdig))
                   (e - Z.of_nat (List.length fdig)).

(** The parts of [_match_number], each on the text the part before it
    left. *)

(** An optional minus sign. *)
Definition scan_sign (s : str) : bool * str :=
  match s with
  | c :: s' => if (c =? MINUS)%N then (true, s') else (false, s)
  | [] => (false, s)
  end.

(** A zero, or a non-zero digit and the digits after it. *)
Definition scan_int_part (s : str) : option (str * str) :=
  match s with
  | [] => None
  | c :: s' =>
      if (c =? 48)%N then Some ([c], s')
      else if is_digit c then
        let (d, r) := take_digits s' in Some (c :: d, r)
      else None
  end.

(** A dot and at least one digit, if there. *)
Definition scan_frac_part (s : str) : str * str :=
  match s with
  | dot :: d :: s' =>
      if (dot =? DOT)%N && is_digit d then
        let (ds, r) := take_digits s' in (d :: ds, r)
      else ([], s)
  | _ => ([], s)
  end.

(** [e] or [E], an optional sign and at least one digit, if there; without
    a digit nothing is taken. *)
Definition scan_exp_part (s : str) : option (bool * str) * str :=
  match s with
  | e :: s' =>
      if ((e =? 101) || (e =? 69))%N then
        let (eneg, s'') :=
          match s' with
          | sg :: t =>
              if (sg =? MINUS)%N then (true, t)
              else if (sg =? PLUS)%N then (false, t)
              else (false, s')
          | [] => (false, s')
          end in
        let (eds, r) := take_digits s'' in
        match eds with
        | [] => (None, s)
        | _ :: _ => (Some (eneg, eds), r)
        end
      else (None, s)
  | [] => (None, s)
  end.

(** [_match_number]: the longest number literal at the head of the text.
    A literal with a fraction or an exponent is a float, any other an
    int. *)
Definition match_number (s : str) : option (pyval * str) :=
  let (neg, s1) := scan_sign s in
  match scan_int_part s1 with
  | None => None
  | Some (idig, s3) =>
      let (fdig, s4) := scan_frac_part s3 in
      let (exp, s5) := scan_exp_part s4 in
      match fdig, exp with
      | [], None => Some (PyInt (int_of_literal neg idig), s5)
      | _, _ => Some (PyFloat (float_of_literal neg idig fdig exp), s5)
      end
  end.

(** The result of scanning a value off the head of a text: the value and
    the text after it, no value there, or the step budget exhausted. *)
Inductive scan (A : Type) : Type :=
| Found (a : A) (rest : str)
| Fail
| Starved.

Arguments Found {A} a rest.
Arguments Fail {A}.
Arguments Starved {A}.

(** [scan_once] with its two loops: the elements of an array after the
    opening bracket, and the members of an object after the opening brace.
    [fuel] bounds the number of calls; [json_loads] gives enough of it. *)
Fixpoint scan_once (fuel : nat) (s : str) : scan pyval :=
  match fuel with
  | O => Starved
  | S fuel' =>
      match s with
      | [] => Fail
      | c :: s' =>
          if (c =? QUOTE)%N then
            match scanstring s' [] with
            | Some (v, r) => Found (PyStr v) r
            | None => Fail
            end
          else if (c =? LBRACE)%N then
            match skip_ws s' with
            | c' :: r =>
                if (c' =? RBRACE)%N then Found (PyDict []) r
                else parse_members fuel' (c' :: r) []
            | [] => Fail
            end
          else if (c =? LBRACKET)%N then
            match skip_ws s' with
            | c' :: r =>
                if (c' =? RBRACKET)%N then Found (PyList []) r
                else parse_elements fuel' (c' :: r) []
            | [] => Fail
            end
          else
            match starts_with (str_of "null") s with
            | Some r => Found PyNone r
            | None =>
            match starts_with (str_of "true") s with
            | Some r => Found (PyBool true) r
            | None =>
            match starts_with (str_of "false") s with
            | Some r => Found (PyBool false) r
            | None =>
            match starts_with (str_of "NaN") s with
            | Some r => Found (PyFloat nan) r
            | None =>
            match starts_with (str_of "Infinity") s with
            | Some r => Found (PyFloat infinity) r
            | None =>
            match starts_with (str_of "-Infinity") s with
            | Some r => Found (PyFloat neg_infinity) r
            | None =>
            match match_number s with
            | Some (v, r) => Found v r
            | None => Fail
            end end end end end end end
      end
  end

with parse_elements (fuel : nat) (s : str) (acc : list pyval) : scan pyval :=
  match fuel with
  | O => Starved
  | S fuel' =>
      match scan_once fuel' s with
      | Found v r =>
          match skip_ws r with
          | c :: r' =>
              if (c =? RBRACKET)%N then Found (PyList (rev (v :: acc))) r'
              else if (c =? COMMA)%N then parse_elements fuel' (skip_ws r') (v :: acc)
              else Fail
          | [] => Fail
          end
      | Fail => Fail
      | Starved => Starved
      end
  end

with parse_members (fuel : nat) (s : str) (acc : list (str * pyval)) : scan pyval :=
  match fuel with
  | O => Starved
  | S fuel' =>
      match s with
      | c :: s' =>
          if (c =? QUOTE)%N then
            match scanstring s' [] with
            | None => Fail
            | Some (key, r) =>
                match skip_ws r with
                | c' :: r' =>
                    if (c' =? COLON)%N then
                      match scan_once fuel' (skip_ws r') with
                      | Found v r2 =>
                          let acc' := dict_set key v acc in
                          match skip_ws r2 with
                          | c2 :: r3 =>
                              if (c2 =? RBRACE)%N then Found (PyDict acc') r3
                              else if (c2 =? COMMA)%N
                                   then parse_members fuel' (skip_ws r3) acc'
                                   else Fail
                          | [] => Fail
                          end
                      | Fail => Fail
                      | Starved => Starved
                      end
                    else Fail
                | [] => Fail
                end
            end
          else Fail
      | [] => Fail
      end
  end.

(** The step budget of [json_loads]. *)
Definition budget (s : str) : nat := S (2 * List.length s).

(** [json.loads(s)] for a [str]. *)
Definition json_loads (s : str) : outcome pyval :=
  match scan_once (budget s) (skip_ws s) with
  | Found v rest =>
      match skip_ws rest with
      | [] => Return v
      | _ :: _ => Raise JSONDecodeError
      end
  | Fail => Raise JSONDecodeError
  | Starved => Raise JSONDecodeError
  end.

End Json.

(** ** utils.py *)

(** [text.index(c)] and [text.rindex(c)] raise [ValueError] when [c] does
    not occur. *)
Definition str_index (c : N) (text : str) : outcome nat :=
  match index c text with
  | Some i => Return i
  | None => Raise ValueError
  end.

Definition str_rindex (c : N) (text : str) : outcome nat :=
  match rindex c text with
  | Some i => Return i
  | None => Raise ValueError
  end.

(** [safe_parse_json(text)]: the value of the whole text, else the value of
    the span from the first opening brace to the last closing brace, else
    [None]. *)
Definition safe_parse_json (text : str) : outcome pyval :=
  try_except
    (Json.json_loads text)
    (fun _ =>
       (* fallback: try to find JSON object in text *)
       try_except
         (start <- str_index Json.LBRACE text ;;
          stop <- (i <- str_rindex Json.RBRACE text ;; Return (i + 1)%nat) ;;
          Json.json_loads (slice text start stop))
         (fun _ => Return PyNone)).

(** Steps 2 to 4 of the extractor as the specification words them: the
    span from the first opening brace to the last closing brace, when the
    first precedes the last, parsed to a mapping or else [Failure]. *)
Inductive extraction : Type :=
| Success (mapping : list (str * pyval))
| Failure.

Definition extract_fallback_spec (raw_text : str) : extraction :=
  match index Json.LBRACE raw_text, rindex Json.RBRACE raw_text with
  | Some i, Some j =>
      if (i <? j)%nat then
        match Json.json_loads (slice raw_text i (S j)) with
        | Return (PyDict m) => Success m
        | _ => Failure
        end
      else Failure
  | _, _ => Failure
  end.

(** How the extractor encodes an [extraction]: the mapping itself, [None]
    for [Failure]. *)
Definition encode_extraction (r : extraction) : pyval :=
  match r with
  | Success m => PyDict m
  | Failure => PyNone
  end.

(** The two-outcome contract of the specification: the result is a
    mapping or [Failure]. *)
Definition clean_two_outcome (text : str) : Prop :=
  exists r : extraction, safe_parse_json text = Return (encode_extraction r).

(** ** Builtins used by rag_client.py *)

(** Truth value of an object ([if not parsed]). *)
Definition truthy (o : pyval) : bool :=
  match o with
  | PyNone => false
  | PyBool b => b
  | PyInt z => negb (z =? 0)%Z
  | PyFloat f => negb (f =? 0)%float
  | PyStr s => match s with [] => false | _ :: _ => true end
  | PyList l => match l with [] => false | _ :: _ => true end
  | PyDict d => match d with [] => false | _ :: _ => true end
  end.

(** [o.get(key, default)]: only a dict has [get]. *)
Definition py_get (o : pyval) (key : str) (default : pyval) : outcome pyval :=
  match o with
  | PyDict d =>
      Return (match dict_get key d with
              | Some v => v
              | None => default
              end)
  | _ => Raise AttributeError
  end.

(** [for c in o]: the items a loop over [o] visits. *)
Definition py_iter (o : pyval) : outcome (list pyval) :=
  match o with
  | PyList l => Return l
  | PyStr s => Return (map (fun c => PyStr [c]) s)
  | PyDict d => Return (map (fun kv => PyStr (fst kv)) d)
  | _ => Raise TypeError
  end.

(** [float(z)] of an int: the nearest float, [OverflowError] beyond the
    largest one. *)
Definition float_of_int (z : Z) : outcome float :=
  let f := SF2Prim (binary_normalize prec emax z 0 false) in
  if is_infinity f then Raise OverflowError else Return f.

(** [Py_ISSPACE]: the white space of the C locale, which [float] strips
    from both ends of its argument. *)
Definition Py_ISSPACE (c : N) : bool :=
  (((9 <=? c) && (c <=? 13)) || (c =? 32))%N.

(** [Py_UNICODE_ISSPACE]: the white space of Unicode (14.0, the database of
    CPython 3.11). *)
Definition Py_UNICODE_ISSPACE (c : N) : bool :=
  (((9 <=? c) && (c <=? 13)) || ((28 <=? c) && (c <=? 32))
   || (c =? 133) || (c =? 160) || (c =? 5760)
   || ((8192 <=? c) && (c <=? 8202))
   || (c =? 8232) || (c =? 8233) || (c =? 8239) || (c =? 8287)
   || (c =? 12288))%N.

(** The digit zero of every run of ten decimal digits of Unicode 14.0. *)
Definition decimal_zeros : list N :=
  [
    48; 1632; 1776; 1984; 2406; 2534; 2662; 2790;
    2918; 3046; 3174; 3302; 3430; 3558; 3664; 3792;
    3872; 4160; 4240; 6112; 6160; 6470; 6608; 6784;
    6800; 6992; 7088; 7232; 7248; 42528; 43216; 43264;
    43472; 43504; 43600; 44016; 65296; 66720; 68912; 69734;
    69872; 69942; 70096; 70384; 70736; 70864; 71248; 71360;
    71472; 71904; 72016; 72784; 73040; 73120; 92768; 92864;
    93008; 120782; 120792; 120802; 120812; 120822; 123200; 123632;
    125264; 130032
  ]%N.

(** [Py_UNICODE_TODECIMAL]: the value of a decimal digit of any script. *)
Definition Py_UNICODE_TODECIMAL (c : N) : option N :=
  match find (fun z => ((z <=? c) && (c <? z + 10))%N) decimal_zeros with
  | Some z => Some (c - z)%N
  | None => None
  end.

(** [_PyUnicode_TransformDecimalAndSpaceToASCII]: an ASCII string is kept;
    in another string every white space beyond ASCII becomes a space and
    every decimal digit its ASCII digit, and the string is cut at the first
    other character beyond ASCII, which becomes a question mark. *)
Fixpoint transform_chars (s : str) : str :=
  match s with
  | [] => []
  | ch :: s' =>
      if (ch <? 127)%N then ch :: transform_chars s'
      else if Py_UNICODE_ISSPACE ch then 32%N :: transform_chars s'
      else match Py_UNICODE_TODECIMAL ch with
           | Some decimal => (48 + decimal)%N :: transform_chars s'
           | None => [63%N]
           end
  end.

Definition transform_decimal_and_space (s : str) : str :=
  if forallb (fun ch => (ch <? 128)%N) s then s else transform_chars s.

Fixpoint lstrip (s : str) : str :=
  match s with
  | c :: s' => if Py_ISSPACE c then lstrip s' else s
  | [] => []
  end.

Definition strip (s : str) : str := rev (lstrip (rev (lstrip s))).

(** A run of digits in which single underscores may separate digits. *)
Fixpoint take_digitpart (s : str) : str * str :=
  match s with
  | [] => ([], [])
  | c :: s' =>
      if Json.is_digit c then
        match s' with
        | u :: s'' =>
            if (u =? 95)%N then
              match take_digitpart s'' with
              | (d :: ds, r) => (c :: d :: ds, r)
              | ([], _) => ([c], s')
              end
            else let (ds, r) := take_digitpart s' in (c :: ds, r)
        | [] => ([c], [])
        end
      else ([], s)
  end.

(** [float(s)] of a [str]: the digits and white space of other scripts are
    brought to ASCII and the white space at both ends is dropped; what is
    left is an optional sign, then [inf], [infinity] or [nan] in any case,
    or a decimal number with an optional exponent; anything else is a
    [ValueError]. *)
Definition float_of_str (s : str) : outcome float :=
  let s0 := strip (transform_decimal_and_space s) in
  let (neg, s1) :=
    match s0 with
    | c :: s' =>
        if (c =? 45)%N then (true, s')
        else if (c =? 43)%N then (false, s')
        else (false, s0)
    | [] => (false, s0)
    end in
  let l := lower s1 in
  if str_eqb l (str_of "inf") || str_eqb l (str_of "infinity")
  then Return (if neg then neg_infinity else infinity)
  else if str_eqb l (str_of "nan") then Return nan
  else
    let (idig, r1) := take_digitpart s1 in
    let (fdig, r2) :=
      match r1 with
      | c :: r => if (c =? 46)%N then take_digitpart r else ([], r1)
      | [] => ([], r1)
      end in
    match idig ++ fdig with
    | [] => Raise ValueError
    | _ :: _ =>
        let mantissa := Json.decimal_value (idig ++ fdig) in
        let shift := Z.of_nat (List.length fdig) in
        match r2 with
        | [] => Return (float_of_decimal neg mantissa (- shift))
        | e :: r =>
            if ((e =? 101) || (e =? 69))%N then
              let (eneg, r') :=
                match r with
                | sg :: t =>
                    if (sg =? 45)%N then (true, t)
                    else if (sg =? 43)%N then (false, t)
                    else (false, r)
                | [] => (false, r)
                end in
              match take_digitpart r' with
              | ((_ :: _) as eds, []) =>
                  Return (float_of_decimal neg mantissa
                            (Json.int_of_literal eneg eds - shift))
              | _ => Raise ValueError
              end
            else Raise ValueError
        end
    end.

(** [float(o)]. *)
Definition py_float (o : pyval) : outcome float :=
  match o with
  | PyNone => Raise TypeError
  | PyBool b => Return (if b then 1%float else 0%float)
  | PyInt z => float_of_int z
  | PyFloat f => Return f
  | PyStr s => float_of_str s
  | PyList _ => Raise TypeError
  | PyDict _ => Raise TypeError
  end.

(** ** rag_client.py *)

(** ["high" if llm_score >= 66 else "medium" if llm_score >= 33 else "low"] *)
Definition risk_of_score (llm_score : float) : str :=
  if (66 <=? llm_score)%float then str_of "high"
  else if (33 <=? llm_score)%float then str_of "medium"
  else str_of "low".

(** [float(c.get("llm_score", 50)) if c.get("llm_score") is not None else 50.0] *)
Definition clause_llm_score (c : pyval) : outcome float :=
  present <- py_get c (str_of "llm_score") PyNone ;;
  match present with
  | PyNone => Return 50%float
  | _ => x <- py_get c (str_of "llm_score") (PyInt 50) ;; py_float x
  end.

(** The body of the loop over the clauses of the model's answer. *)
Definition convert_clause (c : pyval) : outcome pyval :=
  llm_score <- clause_llm_score c ;;
  provs <- py_get c (str_of "provenance") (PyList []) ;;
  original <- py_get c (str_of "original") (PyStr []) ;;
  simplified <- py_get c (str_of "simplified") (PyStr []) ;;
  Return (PyDict [ (str_of "original", original);
                   (str_of "simplified", simplified);
                   (str_of "risk", PyStr (risk_of_score llm_score));
                   (str_of "score", PyFloat llm_score);
                   (str_of "provenance", provs) ]).

Fixpoint convert_clauses (cs : list pyval) (clauses_out : list pyval)
  : outcome (list pyval) :=
  match cs with
  | [] => Return clauses_out
  | c :: cs' =>
      rec <- convert_clause c ;;
      convert_clauses cs' (clauses_out ++ [rec])
  end.

(** What the Vertex AI service answers during one call of
    [summarize_document]: the text of the generated response (building the
    tool and the model, [generate_content], [response.text]) and the [text]
    attribute of the retrieval result of the fallback query.  Either call
    may raise. *)
Record vertex : Type := {
  response_text : outcome (option str);
  retrieval_text : outcome (option str)
}.

Definition summary_record (title summary : pyval) (overall : float)
           (rag_corpus_name : str) (clauses : list pyval) : pyval :=
  PyDict [ (str_of "title", title);
           (str_of "summary", summary);
           (str_of "overall_risk_score", PyFloat overall);
           (str_of "rag_corpus_name", PyStr rag_corpus_name);
           (str_of "clauses", PyList clauses) ].

Definition failed_summary (rag_corpus_name : str) : pyval :=
  summary_record PyNone (PyStr (str_of "Failed to summarize document"))
                 50 rag_corpus_name [].

Definition summarize_document (v : vertex) (rag_corpus_name : str)
  : outcome pyval :=
  try_except
    (response <- response_text v ;;
     let text := match response with
                 | Some (c :: t) => c :: t
                 | _ => []
                 end in
     parsed <- safe_parse_json text ;;
     if negb (truthy parsed) then
       retrieval <- retrieval_text v ;;
       let summary_text := match retrieval with
                           | Some (c :: t) => c :: t
                           | _ => str_of "Summary unavailable"
                           end in
       Return (summary_record PyNone (PyStr summary_text) 50 rag_corpus_name [])
     else
       clauses <- py_get parsed (str_of "clauses") (PyList []) ;;
       cs <- py_iter clauses ;;
       clauses_out <- convert_clauses cs [] ;;
       title <- py_get parsed (str_of "title") PyNone ;;
       summary <- py_get parsed (str_of "summary") (PyStr []) ;;
       overall <- (x <- py_get parsed (str_of "overall_risk_score") (PyFloat 50) ;;
                   py_float x) ;;
       Return (summary_record title summary overall rag_corpus_name clauses_out))
    (fun _ => Return (failed_summary rag_corpus_name)).


Definition field (name : string) (record : pyval) : option pyval :=
  match record with
  | PyDict d => dict_get (str_of name) d
  | _ => None
  end.

(** ** Serialization *)

(** The repository serializes nothing itself; the serialized form of the
    specification's idempotence property is [json.dumps] with its default
    settings (ASCII output, separators [", "] and [": "]).  The digits of a
    finite float are those of [float.__repr__], a parameter here. *)

Module Dumps.

Definition hex_digit (n : N) : N :=
  if (n <? 10)%N then (48 + n)%N else (87 + n)%N.

(** The escape [\uXXXX] of a code unit. *)
Definition u_escape (n : N) : str :=
  [ 92; 117;
    hex_digit (n / 4096); hex_digit ((n / 256) mod 16);
    hex_digit ((n / 16) mod 16); hex_digit (n mod 16) ]%N.

(** What the encoder writes for one character of a string. *)
Definition escape_char (c : N) : str :=
  if (c =? 34)%N then [92; 34]%N
  else if (c =? 92)%N then [92; 92]%N
  else if (c =? 10)%N then [92; 110]%N
  else if (c =? 13)%N then [92; 114]%N
  else if (c =? 9)%N then [92; 116]%N
  else if (c =? 8)%N then [92; 98]%N
  else if (c =? 12)%N then [92; 102]%N
  else if ((32 <=? c) && (c <=? 126))%N then [c]
  else if (c <? 65536)%N then u_escape c
  else
    let v := (c - 65536)%N in
    u_escape (55296 + (v / 1024) mod 1024) ++ u_escape (56320 + v mod 1024).

Definition encode_string (s : str) : str :=
  Json.QUOTE :: flat_map escape_char s ++ [Json.QUOTE].

Fixpoint digits_of_uint (u : Decimal.uint) : str :=
  match u with
  | Decimal.Nil => []
  | Decimal.D0 u' => 48%N :: digits_of_uint u'
  | Decimal.D1 u' => 49%N :: digits_of_uint u'
  | Decimal.D2 u' => 50%N :: digits_of_uint u'
  | Decimal.D3 u' => 51%N :: digits_of_uint u'
  | Decimal.D4 u' => 52%N :: digits_of_uint u'
  | Decimal.D5 u' => 53%N :: digits_of_uint u'
  | Decimal.D6 u' => 54%N :: digits_of_uint u'
  | Decimal.D7 u' => 55%N :: digits_of_uint u'
  | Decimal.D8 u' => 56%N :: digits_of_uint u'
  | Decimal.D9 u' => 57%N :: digits_of_uint u'
  end.

(** [int.__repr__] *)
Definition repr_int (z : Z) : str :=
  match z with
  | Z0 => [48%N]
  | Zpos p => digits_of_uint (Pos.to_uint p)
  | Zneg p => Json.MINUS :: digits_of_uint (Pos.to_uint p)
  end.

Definition encode_float (float_repr : float -> str) (f : float) : str :=
  if is_nan f then str_of "NaN"
  else if (f =? infinity)%float then str_of "Infinity"
  else if (f =? neg_infinity)%float then str_of "-Infinity"
  else float_repr f.

Section Encoder.
Variable float_repr : float -> str.

Fixpoint encode (v : pyval) : str :=
  match v with
  | PyNone => str_of "null"
  | PyBool true => str_of "true"
  | PyBool false => str_of "false"
  | PyInt z => repr_int z
  | PyFloat f => encode_float float_repr f
  | PyStr s => encode_string s
  | PyList l =>
      Json.LBRACKET ::
      (fix items (l : list pyval) : str :=
         match l with
         | [] => []
         | x :: l' =>
             encode x ++
             match l' with
             | [] => []
             | _ :: _ => str_of ", " ++ items l'
             end
         end) l ++ [Json.RBRACKET]
  | PyDict d =>
      Json.LBRACE ::
      (fix members (d : list (str * pyval)) : str :=
         match d with
         | [] => []
         | (k, x) :: d' =>
             encode_string k ++ str_of ": " ++ encode x ++
             match d' with
             | [] => []
             | _ :: _ => str_of ", " ++ members d'
             end
         end) d ++ [Json.RBRACE]
  end.

End Encoder.

(** The two loops of [encode], by name. *)
Definition encode_items (float_repr : float -> str) : list pyval -> str :=
  fix items (l : list pyval) : str :=
    match l with
    | [] => []
    | x :: l' =>
        encode float_repr x ++
        match l' with
        | [] => []
        | _ :: _ => str_of ", " ++ items l'
        end
    end.

Definition encode_members (float_repr : float -> str)
  : list (str * pyval) -> str :=
  fix members (d : list (str * pyval)) : str :=
    match d with
    | [] => []
    | (k, x) :: d' =>
        encode_string k ++ str_of ": " ++ encode float_repr x ++
        match d' with
        | [] => []
        | _ :: _ => str_of ", " ++ members d'
        end
    end.

(** What may follow a value in serialized text: nothing, a comma, a closing
    bracket or a closing brace. *)
Definition delimited (rest : str) : bool :=
  match rest with
  | [] => true
  | c :: _ => ((c =? Json.COMMA) || (c =? Json.RBRACKET) || (c =? Json.RBRACE))%N
  end.

(** The text after a [\uXXXX] escape does not open with the escape of a
    low surrogate. *)
Definition no_low_escape (r : str) : bool :=
  match r with
  | b :: u :: g1 :: g2 :: g3 :: g4 :: _ =>
      if ((b =? Json.BACKSLASH) && (u =? 117))%N then
        match Json.hex4 g1 g2 g3 g4 with
        | Some lo => negb (Json.is_low_surrogate lo)
        | None => false
        end
      else true
  | _ => true
  end.

(** [json.dumps(v)] *)
Definition json_dumps (float_repr : float -> str) (v : pyval) : str :=
  encode float_repr v.

End Dumps.

(** ** What a value must satisfy to be written and read back *)

(** A code point of Unicode. *)
Definition valid_char (c : N) : bool := (c <=? 1114111)%N.

Definition valid_str (s : str) : bool := forallb valid_char s.

(** No high surrogate is immediately followed by a low surrogate. *)
Fixpoint no_split_pair (s : str) : bool :=
  match s with
  | [] => true
  | c :: s' =>
      match s' with
      | [] => true
      | c' :: _ =>
          negb (Json.is_high_surrogate c && Json.is_low_surrogate c')
          && no_split_pair s'
      end
  end.

(** Every string of a value, keys included, satisfies [P]. *)
Fixpoint all_strings (P : str -> bool) (v : pyval) : bool :=
  match v with
  | PyStr s => P s
  | PyList l => forallb (all_strings P) l
  | PyDict d => forallb (fun kv => P (fst kv) && all_strings P (snd kv)) d
  | _ => true
  end.

(** Every float of a value satisfies [P]. *)
Fixpoint all_floats (P : float -> bool) (v : pyval) : bool :=
  match v with
  | PyFloat f => P f
  | PyList l => forallb (all_floats P) l
  | PyDict d => forallb (fun kv => all_floats P (snd kv)) d
  | _ => true
  end.

Fixpoint keys_distinct (d : list (str * pyval)) : bool :=
  match d with
  | [] => true
  | (k, _) :: d' =>
      negb (existsb (fun kv => str_eqb k (fst kv)) d') && keys_distinct d'
  end.

(** Every dict of a value has pairwise distinct keys. *)
Fixpoint all_dicts_distinct (v : pyval) : bool :=
  match v with
  | PyList l => forallb all_dicts_distinct l
  | PyDict d =>
      keys_distinct d && forallb (fun kv => all_dicts_distinct (snd kv)) d
  | _ => true
  end.

(** The digits [float_repr] writes for a finite float scan back to it. *)
Definition float_scans_back (float_repr : float -> str) (f : float) : bool :=
  if is_nan f || (f =? infinity)%float || (f =? neg_infinity)%float then true
  else
    match Json.match_number (float_repr f) with
    | Some (PyFloat g, []) => PrimFloat.Leibniz.eqb g f
    | _ => false
    end.

(** A value that [json.dumps] writes and [json.loads] reads back: its
    strings are sequences of code points without a split surrogate pair,
    the keys of each dict are distinct, and its finite floats are written
    with digits that scan back. *)
Fixpoint writable (float_repr : float -> str) (v : pyval) : bool :=
  match v with
  | PyFloat f => float_scans_back float_repr f
  | PyStr s => valid_str s && no_split_pair s
  | PyList l => forallb (writable float_repr) l
  | PyDict d =>
      keys_distinct d
      && forallb (fun kv => valid_str (fst kv) && no_split_pair (fst kv)
                            && writable float_repr (snd kv)) d
  | _ => true
  end.

(** What the decoder builds from a text of code points: strings of code
    points and dicts of distinct keys. *)
Definition sound (v : pyval) : bool :=
  all_strings valid_str v && all_dicts_distinct v.

(** A text that opens like a serialized value: no white space, no closing
    bracket or brace. *)
Definition opens_value (s : str) : Prop :=
  exists c tl, s = c :: tl /\ Json.is_ws c = false
               /\ (c =? Json.RBRACKET)%N = false /\ (c =? Json.RBRACE)%N = false.

(** What reading a serialized value must give, whatever the budget. *)
Definition reads_back (float_repr : float -> str) (v : pyval) : Prop :=
  forall fuel rest,
    Dumps.delimited rest = true ->
    Json.scan_once fuel (Dumps.encode float_repr v ++ rest) = Json.Starved
    \/ Json.scan_once fuel (Dumps.encode float_repr v ++ rest)
       = Json.Found v rest.

(** A text whose string holds the two halves of a surrogate pair as
    separate characters, the object it decodes to, and the object its
    serialization decodes to. *)
Definition split_pair_text : str :=
  jtext "{'k': '" ++ [55296; 56320]%N ++ jtext "'}".

Definition split_pair_object : pyval :=
  PyDict [ (str_of "k", PyStr [55296; 56320]%N) ].

Definition joined_pair_object : pyval :=
  PyDict [ (str_of "k", PyStr [65536]%N) ].

Definition no_float_repr (f : float) : str := [].


(** The text [response.text or ""] of a generated response. *)
Definition text_of (response : option str) : str :=
  match response with
  | Some t => t
  | None => []
  end.











Definition corpus : str := str_of "corpora/1".

(** ** utils.py: provenance records *)

(** The record [make_clause_provenance] builds for one retrieval chunk. *)
Definition provenance_record (d : pyval) : outcome pyval :=
  text <- py_get d (str_of "text") PyNone ;;
  page <- py_get d (str_of "page") PyNone ;;
  start_offset <- py_get d (str_of "start_offset") PyNone ;;
  Return (PyDict [ (str_of "text", text);
                   (str_of "page", page);
                   (str_of "start_offset", start_offset) ]).

Fixpoint provenance_loop (ds : list pyval) (provs : list pyval)
  : outcome (list pyval) :=
  match ds with
  | [] => Return provs
  | d :: ds' =>
      rec <- provenance_record d ;;
      provenance_loop ds' (provs ++ [rec])
  end.

(** [make_clause_provenance(documents)]: the loop runs over
    [documents or []]. *)
Definition make_clause_provenance (documents : pyval) : outcome (list pyval) :=
  ds <- py_iter (if truthy documents then documents else PyList []) ;;
  provenance_loop ds [].

Definition is_dict (o : pyval) : bool :=
  match o with
  | PyDict _ => true
  | _ => false
  end.

(** ** rag_client.py: answering a question *)

(** What the Vertex AI service answers during one call of [query_rag]: the
    evidence list gathered from the result of the retrieval query, the
    string [str(retrieval_result)], which the code asks for only when the
    generated text is empty, and the text of the generated answer.  Each of
    the three may raise. *)
Record query_vertex : Type := {
  retrieved : outcome (list pyval);
  retrieval_str : outcome str;
  generated_text : outcome (option str)
}.

Definition answer_record (answer evidence : pyval) : pyval :=
  PyDict [ (str_of "answer", answer); (str_of "evidence", evidence) ].

Definition failed_answer : pyval :=
  answer_record
    (PyStr (str_of "Failed to answer question due to an internal error."))
    (PyList []).

(** [query_rag(rag_corpus_name, question)]: the two arguments only travel
    to the service. *)
Definition query_rag (v : query_vertex) (rag_corpus_name question : pyval)
  : outcome pyval :=
  try_except
    (evidence <- retrieved v ;;
     gen <- generated_text v ;;
     let gen_text := match gen with
                     | Some (c :: t) => c :: t
                     | _ => []
                     end in
     parsed <- safe_parse_json gen_text ;;
     if truthy parsed then
       answer <- py_get parsed (str_of "answer") (PyStr gen_text) ;;
       provs <- py_get parsed (str_of "provenance") (PyList evidence) ;;
       Return (answer_record answer provs)
     else
       answer <- match gen_text with
                 | [] => retrieval_str v
                 | _ :: _ => Return gen_text
                 end ;;
       Return (answer_record (PyStr answer) (PyList evidence)))
    (fun _ => Return failed_answer).

(** ** routes/query.py *)

(** What the route hands to the framework: a response body, or an
    [HTTPException]. *)
Inductive route_result : Type :=
| Responds (body : pyval)
| HTTPException (status_code : Z) (detail : str).

(** [query_doc(req)] on a request body [req], a dict. *)
Definition query_doc (v : query_vertex) (req : list (str * pyval))
  : outcome route_result :=
  question <- py_get (PyDict req) (str_of "question") PyNone ;;
  rag_corpus <- py_get (PyDict req) (str_of "rag_corpus") PyNone ;;
  if negb (truthy question) || negb (truthy rag_corpus) then
    Return (HTTPException 400 (str_of "Missing rag_corpus or question"))
  else
    resp <- query_rag v rag_corpus question ;;
    Return (Responds resp).

(** ** Vocabulary of the properties below *)

(** [d.get(key)], with [None] for a missing key. *)
Definition get_or_none (key : string) (d : list (str * pyval)) : pyval :=
  match dict_get (str_of key) d with
  | Some v => v
  | None => PyNone
  end.

(** The provenance record of a chunk [d]: its [text], [page] and
    [start_offset], each [None] when the chunk lacks it. *)
Definition provenance_of (d : list (str * pyval)) : pyval :=
  PyDict [ (str_of "text", get_or_none "text" d);
           (str_of "page", get_or_none "page" d);
           (str_of "start_offset", get_or_none "start_offset" d) ].

(** A clause record of the summary: the five keys in order, a float score
    and the risk label of that score. *)
Definition clause_shape (rec : pyval) : Prop :=
  exists original simplified score provs,
    rec = PyDict [ (str_of "original", original);
                   (str_of "simplified", simplified);
                   (str_of "risk", PyStr (risk_of_score score));
                   (str_of "score", PyFloat score);
                   (str_of "provenance", provs) ].

(** The order of the risk labels: low, medium, high. *)
Definition risk_rank (label : str) : nat :=
  if str_eqb label (str_of "high") then 2%nat
  else if str_eqb label (str_of "medium") then 1%nat
  else 0%nat.

(** The category of an integer estimate, by integer comparisons. *)
Definition risk_of_int (z : Z) : str :=
  if (66 <=? z)%Z then str_of "high"
  else if (33 <=? z)%Z then str_of "medium"
  else str_of "low".

(** * Float comparison facts *)

Lemma pos_compare_cont_antisym p q :
  PosDef.Pos.compare_cont Eq q p = CompOpp (PosDef.Pos.compare_cont Eq p q).
Proof. symmetry. exact (Pos.compare_cont_antisym p q Eq). Qed.

Lemma SFcompare_antisym x y :
  SFcompare y x = option_map CompOpp (SFcompare x y).
Proof.
  destruct x as [sx|sx| |sx mx ex], y as [sy|sy| |sy my ey]; simpl;
    try destruct sx; try destruct sy; try reflexivity;
    rewrite (Z.compare_antisym ex ey); destruct (ex ?= ey)%Z; simpl; try reflexivity;
    rewrite (pos_compare_cont_antisym mx my); try rewrite CompOpp_involutive;
    reflexivity.
Qed.

Lemma SFcompare_refl x : x <> S754_nan -> SFcompare x x = Some Eq.
Proof.
  destruct x as [s|s| |s m e]; simpl; intros H; try congruence;
    try (destruct s; reflexivity).
  rewrite Z.compare_refl.
  change (PosDef.Pos.compare_cont Eq m m) with (Pos.compare m m).
  rewrite Pos.compare_refl. destruct s; reflexivity.
Qed.


(** Below a positive float is below the float of the same mantissa and a
    larger exponent. *)
Lemma SFltb_exponent x m e e' :
  (e < e')%Z ->
  SFltb x (S754_finite false m e) = true -> SFltb x (S754_finite false m e') = true.
Proof.
  unfold SFltb. intro He.
  destruct x as [sx|sx| |sx mx ex]; simpl; try congruence;
    destruct sx; simpl; try congruence.
  destruct (Z.compare_spec ex e), (Z.compare_spec ex e'); try lia; congruence.
Qed.

Section FloatOrder.
Local Open Scope float_scope.



Lemma ltb_not_leb x y : (x <? y) = true -> (y <=? x) = false.
Proof.
  rewrite ltb_spec, leb_spec. unfold SFltb, SFleb.
  rewrite (SFcompare_antisym (Prim2SF x) (Prim2SF y)).
  destruct (SFcompare (Prim2SF x) (Prim2SF y)) as [[]|]; simpl; congruence.
Qed.


Lemma not_ltb_leb x y :
  (x =? x) = true -> (y =? y) = true -> (x <? y) = false -> (y <=? x) = true.
Proof.
  rewrite !ltb_spec, !eqb_spec, leb_spec. unfold SFltb, SFeqb, SFleb.
  rewrite (SFcompare_antisym (Prim2SF x) (Prim2SF y)).
  destruct (Prim2SF x) as [sx|sx| |sx mx ex], (Prim2SF y) as [sy|sy| |sy my ey];
    simpl; try congruence;
    try destruct sx; try destruct sy; simpl; try congruence;
    destruct (ex ?= ey)%Z; simpl; try congruence;
    destruct (PosDef.Pos.compare_cont Eq mx my); simpl; congruence.
Qed.

Lemma eqb_sym x y : (x =? y) = (y =? x).
Proof.
  rewrite !eqb_spec. unfold SFeqb.
  rewrite (SFcompare_antisym (Prim2SF x) (Prim2SF y)).
  destruct (SFcompare (Prim2SF x) (Prim2SF y)) as [[]|]; reflexivity.
Qed.



Lemma ltb_33_66 x : (x <? 33) = true -> (x <? 66) = true.
Proof.
  rewrite !ltb_spec.
  assert (E : exists m e e', (e < e')%Z /\ Prim2SF 33 = S754_finite false m e
                             /\ Prim2SF 66 = S754_finite false m e').
  { vm_compute. do 3 eexists. split; [|split; reflexivity]. reflexivity. }
  destruct E as (m & e & e' & He & -> & ->).
  now apply SFltb_exponent.
Qed.

End FloatOrder.

(** * The rule score *)

Lemma count_matches_bounds sev t :
  (0 <= count_matches sev t <= 6)%Z.
Proof.
  unfold count_matches.
  pose proof (filter_length_le (fun kw => Re.search kw t) (RISK_KEYWORDS sev)) as H.
  assert (List.length (RISK_KEYWORDS sev) <= 6)%nat by (destruct sev; simpl; lia).
  lia.
Qed.

Lemma rule_score_spec_bounds t : (0 <= rule_score_spec t <= 100)%Z.
Proof.
  unfold rule_score_spec.
  pose proof (count_matches_bounds high (lower t)).
  pose proof (count_matches_bounds medium (lower t)).
  lia.
Qed.

(** The loop over a pattern list adds its points once per matching
    pattern. *)
Lemma fold_hits (f : Re.regex -> bool) (p : float) l a :
  fold_left (fun score kw => if f kw then (score + p)%float else score) l a
  = Nat.iter (List.length (filter f l)) (fun score => (score + p)%float) a.
Proof.
  revert a; induction l as [|kw l IH]; intro a; simpl; [reflexivity|].
  rewrite IH. destruct (f kw); [|reflexivity].
  simpl List.length. now rewrite Nat.iter_succ_r.
Qed.

(** Every sum the two loops can reach is an integer that the float
    additions compute exactly. *)
Lemma capped_sum_exact h m :
  (h <= 6)%nat -> (m <= 5)%nat ->
  py_min 100 (Nat.iter m (fun score => (score + 15)%float)
                (Nat.iter h (fun score => (score + 40)%float) 0%float))
  = Z2F (Z.min 100 (40 * Z.of_nat h + 15 * Z.of_nat m)).
Proof.
  intros Hh Hm.
  do 7 (destruct h as [|h];
        [ do 6 (destruct m as [|m]; [vm_compute; reflexivity|]); lia |]).
  lia.
Qed.

Lemma rule_score_refines t :
  rule_score_for_clause t = Z2F (rule_score_spec t).
Proof.
  unfold rule_score_for_clause, rule_score_spec, count_matches.
  rewrite !fold_hits.
  apply capped_sum_exact.
  - apply (filter_length_le _ (RISK_KEYWORDS high)).
  - apply (filter_length_le _ (RISK_KEYWORDS medium)).
Qed.

Lemma Z2F_percent n :
  (n <= 100)%nat ->
  ((0 <=? Z2F (Z.of_nat n)) && (Z2F (Z.of_nat n) <=? 100))%float = true.
Proof.
  intro H.
  do 101 (destruct n as [|n]; [vm_compute; reflexivity|]).
  lia.
Qed.

(** C5. For every clause text [t], [rule_score_for_clause t] is the sum of
    40 points per high-severity pattern found in the lower-cased text and 15
    points per medium-severity pattern found, capped at 100; it lies in
    [0, 100]; being a function of [t] alone it is deterministic.  The
    indemnification clause scores at least 80 and the weather sentence 0. *)
Theorem rule_score_for_clause_correct :
  (forall t : str,
      rule_score_for_clause t = Z2F (rule_score_spec t)
      /\ (0 <= rule_score_spec t <= 100)%Z
      /\ ((0 <=? rule_score_for_clause t)
          && (rule_score_for_clause t <=? 100))%float = true)
  /\ (80 <=? rule_score_for_clause clause_indemnity)%float = true
  /\ rule_score_for_clause clause_weather = 0%float.
Proof.
  split; [|split; vm_compute; reflexivity].
  intro t. pose proof (rule_score_spec_bounds t) as B.
  repeat split; try apply rule_score_refines; try lia.
  rewrite rule_score_refines.
  rewrite <- (Z2Nat.id (rule_score_spec t)) by lia.
  apply Z2F_percent. lia.
Qed.

(** * The combined score *)

Section CombinedScore.
Local Open Scope float_scope.



End CombinedScore.

(** * The risk category *)

Section RiskCategory.
Local Open Scope float_scope.

Lemma not_leb_ltb x y :
  (x =? x) = true -> (y =? y) = true -> (y <=? x) = false -> (x <? y) = true.
Proof.
  intros Hx Hy H. destruct (x <? y) eqn:E; [reflexivity|].
  rewrite (not_ltb_leb x y Hx Hy E) in H. discriminate.
Qed.

(** C7. The risk category is a total function of the score: high from 66
    up, medium from 33 up to but excluding 66, low below 33, and every
    number falls in one of the three bands.  At the boundaries: 66 is high,
    65.999 medium, 33 medium, 32.999 low. *)
Theorem risk_of_score_bands :
  (forall s : float,
      ((66 <=? s) = true -> risk_of_score s = str_of "high")
      /\ ((33 <=? s) = true -> (s <? 66) = true ->
          risk_of_score s = str_of "medium")
      /\ ((s <? 33) = true -> risk_of_score s = str_of "low")
      /\ ((s =? s) = true ->
          (66 <=? s) || ((33 <=? s) && (s <? 66)) || (s <? 33) = true))
  /\ risk_of_score 66 = str_of "high"
  /\ risk_of_score 65.999 = str_of "medium"
  /\ risk_of_score 33 = str_of "medium"
  /\ risk_of_score 32.999 = str_of "low".
Proof.
  split; [|repeat split; vm_compute; reflexivity].
  intro s. unfold risk_of_score. repeat split.
  - intros ->. reflexivity.
  - intros H33 H66. rewrite (ltb_not_leb _ _ H66), H33. reflexivity.
  - intro H. rewrite (ltb_not_leb _ _ (ltb_33_66 _ H)), (ltb_not_leb _ _ H).
    reflexivity.
  - intro Hs.
    destruct (66 <=? s) eqn:H66; [reflexivity|].
    rewrite (not_leb_ltb s 66 Hs eq_refl H66).
    destruct (33 <=? s) eqn:H33; [reflexivity|].
    rewrite (not_leb_ltb s 33 Hs eq_refl H33). reflexivity.
Qed.

(** A score of 50 lies in the medium band. *)
Lemma risk_of_score_bands_witness : risk_of_score 50 = str_of "medium".
Proof.
  apply (proj1 (proj2 (proj1 risk_of_score_bands 50))); reflexivity.
Defined.

End RiskCategory.

(** * The JSON scanner: consumption, step budget, objects *)

(** Case analysis on the innermost [match] of a hypothesis. *)
Ltac no_match x :=
  lazymatch x with
  | context [match _ with _ => _ end] => fail
  | _ => idtac
  end.

Ltac break_match_hyp H :=
  match type of H with
  | context [match ?x with _ => _ end] => no_match x; destruct x eqn:?
  end.

Section Scanner.
Import Json.

Lemma skip_ws_length s : (List.length (skip_ws s) <= List.length s)%nat.
Proof.
  induction s as [|c s IH]; simpl; [lia|].
  destruct (is_ws c); simpl; lia.
Qed.

Lemma starts_with_length p s r :
  starts_with p s = Some r -> List.length s = (List.length p + List.length r)%nat.
Proof.
  revert s; induction p as [|x p IH]; intros [|y s] H; simpl in *;
    try congruence; try (inversion H; reflexivity).
  destruct (x =? y)%N; [|discriminate]. rewrite (IH _ H). reflexivity.
Qed.

Lemma take_digits_length s d r :
  take_digits s = (d, r) -> List.length s = (List.length d + List.length r)%nat.
Proof.
  revert d r; induction s as [|c s IH]; intros d r H; simpl in H.
  - inversion H; reflexivity.
  - destruct (is_digit c).
    + destruct (take_digits s) as [d' r'] eqn:E. inversion H; subst.
      simpl. rewrite (IH _ _ eq_refl). reflexivity.
    + inversion H; subst. reflexivity.
Qed.

Lemma scanstring_length n : forall s acc v r,
  (List.length s <= n)%nat ->
  scanstring s acc = Some (v, r) -> (List.length r < List.length s)%nat.
Proof.
  induction n as [|n IH]; intros s acc v r Hn H.
  - destruct s; [discriminate|simpl in Hn; lia].
  - destruct s as [|c s1]; [discriminate|].
    simpl in H.
    repeat (break_match_hyp H; subst; cbv beta match in H; try discriminate);
    cbn [List.length] in *;
    try (inversion H; subst; lia);
    try (apply IH in H; cbn [List.length] in *; lia).
Qed.

Lemma match_number_length s v r :
  match_number s = Some (v, r) -> (List.length r < List.length s)%nat.
Proof.
  unfold match_number, scan_sign, scan_int_part, scan_frac_part, scan_exp_part.
  intro H.
  repeat (break_match_hyp H; subst; cbv beta match in H; try discriminate);
    repeat match goal with
           | E : take_digits _ = _ |- _ => apply take_digits_length in E
           end;
    inversion H; subst; cbn [List.length] in *; lia.
Qed.

Ltac length_facts IHv IHe IHm :=
  repeat match goal with
         | E : scanstring _ _ = Some _ |- _ =>
             apply (scanstring_length _ _ _ _ _ (le_n _)) in E
         | E : starts_with _ _ = Some _ |- _ => apply starts_with_length in E
         | E : match_number _ = Some _ |- _ => apply match_number_length in E
         | E : skip_ws ?x = _ |- _ =>
             pose proof (skip_ws_length x); rewrite E in *; clear E
         | E : scan_once _ _ = Found _ _ |- _ => apply IHv in E
         | E : parse_members _ _ _ = Found _ _ |- _ => apply IHm in E
         | E : parse_elements _ _ _ = Found _ _ |- _ => apply IHe in E
         end;
  repeat match goal with
         | E : context [List.length (skip_ws ?x)] |- _ =>
             lazymatch goal with
             | _ : (List.length (skip_ws x) <= List.length x)%nat |- _ => fail
             | _ => pose proof (skip_ws_length x)
             end
         end.

Lemma scan_lengths fuel :
  (forall s v r, scan_once fuel s = Found v r ->
                 (List.length r < List.length s)%nat)
  /\ (forall s acc v r, parse_elements fuel s acc = Found v r ->
                        (List.length r < List.length s)%nat)
  /\ (forall s acc v r, parse_members fuel s acc = Found v r ->
                        (List.length r < List.length s)%nat).
Proof.
  induction fuel as [|fuel (IHv & IHe & IHm)];
    [repeat split; intros; discriminate|].
  repeat split.
  - intros s v r H. destruct s as [|c s']; [discriminate|].
    cbn [scan_once] in H.
    repeat (break_match_hyp H; subst; cbv beta match in H; try discriminate);
      try (injection H as <- <-);
      length_facts IHv IHe IHm; cbn [List.length str_of] in *; lia.
  - intros s acc v r H. cbn [parse_elements] in H.
    repeat (break_match_hyp H; subst; cbv beta match in H; try discriminate);
      try (injection H as <- <-);
      length_facts IHv IHe IHm; cbn [List.length] in *; lia.
  - intros s acc v r H. cbn [parse_members] in H.
    repeat (break_match_hyp H; subst; cbv beta match zeta in H; try discriminate);
      try (injection H as <- <-);
      length_facts IHv IHe IHm; cbn [List.length] in *; lia.
Qed.

Ltac ws_lia :=
  repeat match goal with
         | |- context [List.length (skip_ws ?x)] =>
             lazymatch goal with
             | _ : (List.length (skip_ws x) <= List.length x)%nat |- _ => fail
             | _ => pose proof (skip_ws_length x)
             end
         end;
  cbn [List.length] in *; lia.

Lemma scan_fed fuel :
  (forall s, (2 * List.length s + 1 <= fuel)%nat -> scan_once fuel s <> Starved)
  /\ (forall s acc, (2 * List.length s + 2 <= fuel)%nat ->
                    parse_elements fuel s acc <> Starved)
  /\ (forall s acc, (2 * List.length s + 1 <= fuel)%nat ->
                    parse_members fuel s acc <> Starved).
Proof.
  induction fuel as [|fuel (IHv & IHe & IHm)];
    [repeat split; intros; lia|].
  destruct (scan_lengths fuel) as (Lv & Le & Lm).
  repeat split.
  - intros s Hs H. destruct s as [|c s']; [discriminate|].
    cbn [scan_once] in H.
    repeat (break_match_hyp H; subst; cbv beta match in H; try discriminate);
      length_facts Lv Le Lm; cbn [List.length] in *;
      [ eapply IHm; [|exact H] | eapply IHe; [|exact H] ]; ws_lia.
  - intros s acc Hs H. cbn [parse_elements] in H.
    repeat (break_match_hyp H; subst; cbv beta match in H; try discriminate);
      length_facts Lv Le Lm; cbn [List.length] in *.
    + eapply IHe; [|exact H]. ws_lia.
    + eapply IHv; [|eassumption]. ws_lia.
  - intros s acc Hs H. cbn [parse_members] in H.
    repeat (break_match_hyp H; subst; cbv beta match zeta in H; try discriminate);
      length_facts Lv Le Lm; cbn [List.length] in *.
    + eapply IHm; [|exact H]. ws_lia.
    + eapply IHv; [|eassumption]. ws_lia.
Qed.

(** [json_loads] never runs out of steps. *)
Lemma budget_suffices s : scan_once (budget s) (skip_ws s) <> Starved.
Proof.
  apply (proj1 (scan_fed (budget s))).
  unfold budget. pose proof (skip_ws_length s). lia.
Qed.

Lemma parse_members_dict fuel : forall s acc v r,
  parse_members fuel s acc = Found v r -> exists d, v = PyDict d.
Proof.
  induction fuel as [|fuel IH]; intros s acc v r H; [discriminate|].
  cbn [parse_members] in H.
  repeat (break_match_hyp H; subst; cbv beta match zeta in H; try discriminate).
  - injection H as <- <-. eauto.
  - eapply IH; eassumption.
Qed.

Lemma scan_once_brace fuel s v r :
  scan_once fuel (LBRACE :: s) = Found v r -> exists d, v = PyDict d.
Proof.
  destruct fuel as [|fuel]; [discriminate|].
  cbn [scan_once]. change (LBRACE =? QUOTE)%N with false.
  change (LBRACE =? LBRACE)%N with true. cbv beta match.
  intro H.
  repeat (break_match_hyp H; subst; cbv beta match in H; try discriminate).
  - injection H as <- <-. eauto.
  - eapply parse_members_dict; eassumption.
Qed.

(** A text that opens with a brace decodes, if at all, to a dict. *)
Lemma json_loads_brace s v :
  json_loads (LBRACE :: s) = Return v -> exists d, v = PyDict d.
Proof.
  unfold json_loads. change (skip_ws (LBRACE :: s)) with (LBRACE :: s).
  intro H.
  destruct (scan_once (budget (LBRACE :: s)) (LBRACE :: s)) as [v' r| |] eqn:E;
    try discriminate.
  destruct (skip_ws r); [|discriminate]. injection H as <-.
  eapply scan_once_brace; eassumption.
Qed.

End Scanner.

(** * The extractor *)

Section Extractor.
Import Json.

Lemma index_skipn c s i :
  index c s = Some i -> exists rest, skipn i s = c :: rest.
Proof.
  revert i; induction s as [|x s IH]; intros i H; simpl in H; [discriminate|].
  destruct (x =? c)%N eqn:E.
  - injection H as <-. apply N.eqb_eq in E. subst. simpl. eauto.
  - destruct (index c s) as [k|]; [|discriminate].
    injection H as <-. simpl. apply IH. reflexivity.
Qed.

Lemma index_nth c s i : index c s = Some i -> nth_error s i = Some c.
Proof.
  revert i; induction s as [|x s IH]; intros i H; simpl in H; [discriminate|].
  destruct (x =? c)%N eqn:E.
  - injection H as <-. apply N.eqb_eq in E. subst. reflexivity.
  - destruct (index c s) as [k|]; [|discriminate].
    injection H as <-. simpl. apply IH. reflexivity.
Qed.

Lemma rindex_nth c s i : rindex c s = Some i -> nth_error s i = Some c.
Proof.
  revert i; induction s as [|x s IH]; intros i H; simpl in H; [discriminate|].
  destruct (rindex c s) as [k|].
  - injection H as <-. simpl. apply IH. reflexivity.
  - destruct (x =? c)%N eqn:E; [|discriminate].
    injection H as <-. apply N.eqb_eq in E. subst. reflexivity.
Qed.

(** The span from the first opening brace to the last closing brace opens
    with a brace when the first precedes the last, and is empty otherwise. *)
Lemma brace_span text i j :
  index LBRACE text = Some i -> rindex RBRACE text = Some j ->
  if (i <? j)%nat
  then exists rest, slice text i (S j) = LBRACE :: rest
  else slice text i (S j) = [].
Proof.
  intros Hi Hj. unfold slice.
  destruct (i <? j)%nat eqn:E.
  - apply Nat.ltb_lt in E. destruct (index_skipn _ _ _ Hi) as [rest ->].
    replace (S j - i)%nat with (S (j - i)) by lia. simpl. eauto.
  - apply Nat.ltb_ge in E.
    assert (i <> j).
    { intros ->. apply index_nth in Hi. apply rindex_nth in Hj.
      rewrite Hi in Hj. discriminate. }
    replace (S j - i)%nat with 0%nat by lia. reflexivity.
Qed.

(** [safe_parse_json] with its handlers unfolded. *)
Lemma safe_parse_json_unfold text :
  safe_parse_json text =
  match json_loads text with
  | Return v => Return v
  | Raise _ =>
      match index LBRACE text, rindex RBRACE text with
      | Some i, Some j =>
          match json_loads (slice text i (S j)) with
          | Return v => Return v
          | Raise _ => Return PyNone
          end
      | _, _ => Return PyNone
      end
  end.
Proof.
  unfold safe_parse_json, try_except, str_index, str_rindex, bind.
  destruct (json_loads text); [reflexivity|].
  destruct (index LBRACE text); [|reflexivity].
  destruct (rindex RBRACE text) as [j|]; [|reflexivity].
  rewrite Nat.add_1_r. reflexivity.
Qed.

Lemma fallback_refines text e :
  json_loads text = Raise e ->
  safe_parse_json text = Return (encode_extraction (extract_fallback_spec text)).
Proof.
  intro H. rewrite safe_parse_json_unfold, H. unfold extract_fallback_spec.
  destruct (index LBRACE text) as [i|] eqn:Hi; [|reflexivity].
  destruct (rindex RBRACE text) as [j|] eqn:Hj; [|reflexivity].
  pose proof (brace_span text i j Hi Hj) as B.
  destruct (i <? j)%nat.
  - destruct B as [rest ->].
    destruct (json_loads (LBRACE :: rest)) as [v|] eqn:E; [|reflexivity].
    destruct (json_loads_brace _ _ E) as [d ->]. reflexivity.
  - rewrite B. reflexivity.
Qed.

(** C3. When the whole text is not valid JSON the extractor parses the span
    from the first opening brace to the last closing brace, inclusive, and
    returns that mapping if it parses and [Failure] (None) otherwise.  The
    JSON wrapped in prose is recovered; a text without braces and a
    truncated object are failures. *)
Theorem safe_parse_json_fallback :
  (forall text e,
      json_loads text = Raise e ->
      safe_parse_json text
      = Return (encode_extraction (extract_fallback_spec text)))
  /\ safe_parse_json
       (jtext "Sure! Here is the JSON: {'a': 1, 'b': [1,2]} Hope that helps.")
     = Return (PyDict [ (str_of "a", PyInt 1);
                        (str_of "b", PyList [PyInt 1; PyInt 2]) ])
  /\ safe_parse_json (jtext "no json here at all") = Return PyNone
  /\ safe_parse_json (jtext "{'a': 1") = Return PyNone.
Proof.
  split; [exact fallback_refines|].
  repeat split; vm_compute; reflexivity.
Qed.

(** The prose-wrapped answer is not valid JSON as a whole, and the
    fallback recovers its object. *)
Lemma safe_parse_json_fallback_witness :
  safe_parse_json
    (jtext "Here you go: {'risk': 'low'} Done.")
  = Return (encode_extraction
              (extract_fallback_spec
                 (jtext "Here you go: {'risk': 'low'} Done."))).
Proof.
  apply (proj1 safe_parse_json_fallback _ JSONDecodeError).
  vm_compute. reflexivity.
Defined.

(** C2 as stated fails on an array: a JSON array is returned as it is,
    neither a mapping nor [Failure]. *)
Lemma array_breaks_two_outcome : ~ clean_two_outcome (jtext "[1, 2]").
Proof.
  intros [r H].
  assert (E : safe_parse_json (jtext "[1, 2]")
              = Return (PyList [PyInt 1; PyInt 2])) by (vm_compute; reflexivity).
  rewrite E in H. destruct r; discriminate.
Qed.

(** C2, amended. For every input the result is either the value of the
    whole text, when the text is valid JSON (a value of any JSON type), or,
    when it is not, a clean two-outcome decision: the mapping parsed from
    the span from the first opening brace to the last closing brace, or
    [Failure]; nothing else is returned. *)
Theorem safe_parse_json_outcomes :
  forall text,
    (exists v, json_loads text = Return v /\ safe_parse_json text = Return v)
    \/ ((exists e, json_loads text = Raise e)
        /\ safe_parse_json text
           = Return (encode_extraction (extract_fallback_spec text))
        /\ clean_two_outcome text).
Proof.
  intro text. destruct (json_loads text) as [v|e] eqn:E.
  - left. exists v. split; [reflexivity|].
    rewrite safe_parse_json_unfold, E. reflexivity.
  - right. split; [eauto|].
    pose proof (fallback_refines text e E) as F.
    split; [exact F|]. exists (extract_fallback_spec text). exact F.
Qed.

(** C4. For every input the extractor returns a value and raises nothing:
    the errors of both parse attempts and of both searches are absorbed.
    The decoder itself always finishes within its step budget. *)
Theorem safe_parse_json_never_raises :
  (forall text, exists v, safe_parse_json text = Return v)
  /\ (forall s, scan_once (budget s) (skip_ws s) <> Starved).
Proof.
  split; [|exact budget_suffices].
  intro text. rewrite safe_parse_json_unfold.
  destruct (json_loads text); [eauto|].
  destruct (index LBRACE text); [|eauto].
  destruct (rindex RBRACE text); [|eauto].
  destruct (json_loads _); eauto.
Qed.

(** C10. Failure is encoded as [None], the value JSON [null] decodes to:
    on the text [null] the whole-text parse succeeds, and the extractor
    returns the very value it returns on a text with no JSON at all. *)
Theorem null_indistinguishable_from_failure :
  json_loads (jtext "null") = Return PyNone
  /\ safe_parse_json (jtext "null") = Return PyNone
  /\ json_loads (jtext "no json here at all") = Raise JSONDecodeError
  /\ safe_parse_json (jtext "no json here at all") = Return PyNone
  /\ encode_extraction Failure = PyNone.
Proof. repeat split; vm_compute; reflexivity. Qed.

End Extractor.

(** * The summarization pipeline *)

Lemma convert_clauses_spec cs : forall acc recs,
  convert_clauses cs acc = Return recs ->
  exists recs',
    recs = acc ++ recs'
    /\ Forall2 (fun c rec => convert_clause c = Return rec) cs recs'.
Proof.
  induction cs as [|c cs IH]; intros acc recs H; simpl in H.
  - injection H as <-. exists []. rewrite List.app_nil_r. split; constructor.
  - destruct (convert_clause c) as [rec|] eqn:E; simpl in H; [|discriminate].
    destruct (IH _ _ H) as (recs' & -> & F).
    exists (rec :: recs'). rewrite <- List.app_assoc. split; [reflexivity|].
    constructor; assumption.
Qed.



(** [response.text or ""] *)
Lemma response_text_of (response : option str) :
  match response with
  | Some (c :: t) => c :: t
  | _ => []
  end = text_of response.
Proof. destruct response as [[|c t]|]; reflexivity. Qed.

















(** * Serialization read back *)

Section RoundTrip.
Import Json Dumps.

Ltac Zify.zify_post_hook ::= Z.to_euclidean_division_equations.

Lemma hex_value_digit n : (n < 16)%N -> hex_value (hex_digit n) = Some n.
Proof.
  intro H. unfold hex_value, hex_digit, is_digit.
  destruct (n <? 10)%N eqn:E.
  - apply N.ltb_lt in E.
    replace ((48 <=? 48 + n) && (48 + n <=? 57))%N with true
      by (symmetry; apply andb_true_intro; split; apply N.leb_le; lia).
    f_equal. lia.
  - apply N.ltb_ge in E.
    replace ((48 <=? 87 + n) && (87 + n <=? 57))%N with false
      by (symmetry; apply andb_false_intro2; apply N.leb_gt; lia).
    replace ((97 <=? 87 + n) && (87 + n <=? 102))%N with true
      by (symmetry; apply andb_true_intro; split; apply N.leb_le; lia).
    f_equal. lia.
Qed.

Lemma hex4_u_escape n :
  (n < 65536)%N ->
  hex4 (hex_digit (n / 4096)) (hex_digit ((n / 256) mod 16))
       (hex_digit ((n / 16) mod 16)) (hex_digit (n mod 16)) = Some n.
Proof.
  intro H. unfold hex4.
  rewrite !hex_value_digit by lia.
  f_equal. lia.
Qed.

Lemma scanstring_quote r acc : scanstring (QUOTE :: r) acc = Some (rev acc, r).
Proof. reflexivity. Qed.

Lemma scanstring_plain c r acc :
  (c =? QUOTE)%N = false -> (c =? BACKSLASH)%N = false -> (c <? 32)%N = false ->
  scanstring (c :: r) acc = scanstring r (c :: acc).
Proof. intros H1 H2 H3. cbn [scanstring]. rewrite H1, H2, H3. reflexivity. Qed.

Lemma scanstring_simple e ch r acc :
  (e =? 117)%N = false -> simple_escape e = Some ch ->
  scanstring (BACKSLASH :: e :: r) acc = scanstring r (ch :: acc).
Proof.
  intros H1 H2. cbn [scanstring].
  change (BACKSLASH =? QUOTE)%N with false.
  change (BACKSLASH =? BACKSLASH)%N with true.
  cbv beta match. rewrite H1, H2. reflexivity.
Qed.

Lemma scanstring_u h1 h2 h3 h4 uni r acc :
  hex4 h1 h2 h3 h4 = Some uni ->
  is_high_surrogate uni = false \/ no_low_escape r = true ->
  scanstring (BACKSLASH :: 117%N :: h1 :: h2 :: h3 :: h4 :: r) acc
  = scanstring r (uni :: acc).
Proof.
  intros H1 H2. cbn [scanstring].
  change (BACKSLASH =? QUOTE)%N with false.
  change (BACKSLASH =? BACKSLASH)%N with true.
  change (117 =? 117)%N with true.
  cbv beta match. rewrite H1.
  destruct (is_high_surrogate uni); [|reflexivity].
  destruct H2 as [H2|H2]; [discriminate|].
  destruct r as [|b [|u [|g1 [|g2 [|g3 [|g4 r]]]]]]; try reflexivity.
  unfold no_low_escape in H2.
  destruct ((b =? BACKSLASH) && (u =? 117))%N; [|reflexivity].
  destruct (hex4 g1 g2 g3 g4) as [lo|]; [|discriminate].
  destruct (is_low_surrogate lo); [discriminate|reflexivity].
Qed.

Lemma scanstring_u_pair h1 h2 h3 h4 g1 g2 g3 g4 hi lo r acc :
  hex4 h1 h2 h3 h4 = Some hi -> is_high_surrogate hi = true ->
  hex4 g1 g2 g3 g4 = Some lo -> is_low_surrogate lo = true ->
  scanstring (BACKSLASH :: 117%N :: h1 :: h2 :: h3 :: h4 ::
              BACKSLASH :: 117%N :: g1 :: g2 :: g3 :: g4 :: r) acc
  = scanstring r (join_surrogates hi lo :: acc).
Proof.
  intros H1 H2 H3 H4. cbn [scanstring].
  change (BACKSLASH =? QUOTE)%N with false.
  change (BACKSLASH =? BACKSLASH)%N with true.
  change (117 =? 117)%N with true.
  cbv beta match. rewrite H1, H2. cbn [andb]. rewrite H3, H4. reflexivity.
Qed.

Lemma no_low_escape_head1 b tl :
  (b =? BACKSLASH)%N = false -> no_low_escape (b :: tl) = true.
Proof.
  intro H. destruct tl as [|u [|g1 [|g2 [|g3 [|g4 r]]]]]; try reflexivity.
  unfold no_low_escape. rewrite H. reflexivity.
Qed.

Lemma no_low_escape_head2 b u tl :
  (u =? 117)%N = false -> no_low_escape (b :: u :: tl) = true.
Proof.
  intro H. destruct tl as [|g1 [|g2 [|g3 [|g4 r]]]]; try reflexivity.
  unfold no_low_escape. rewrite H, andb_false_r. reflexivity.
Qed.

Lemma no_low_escape_u n tl :
  (n < 65536)%N -> is_low_surrogate n = false ->
  no_low_escape (u_escape n ++ tl) = true.
Proof.
  intros H1 H2. unfold u_escape. cbn [app]. unfold no_low_escape.
  change ((92 =? BACKSLASH) && (117 =? 117))%N with true. cbv beta match.
  rewrite hex4_u_escape by assumption. rewrite H2. reflexivity.
Qed.

Lemma andb_leb_true a b c :
  (a <= b)%N -> (b <= c)%N -> ((a <=? b) && (b <=? c))%N = true.
Proof. intros. apply andb_true_intro; split; apply N.leb_le; assumption. Qed.

(** The four shapes of an escaped character. *)
Lemma escape_char_cases c :
  valid_char c = true ->
  (exists e, escape_char c = [BACKSLASH; e]
             /\ (e =? 117)%N = false /\ simple_escape e = Some c)
  \/ (escape_char c = [c] /\ (c =? QUOTE)%N = false
      /\ (c =? BACKSLASH)%N = false /\ (c <? 32)%N = false)
  \/ (escape_char c = u_escape c /\ (c < 65536)%N)
  \/ (exists hi lo, escape_char c = u_escape hi ++ u_escape lo
                    /\ (hi < 65536)%N /\ (lo < 65536)%N
                    /\ is_high_surrogate hi = true
                    /\ is_low_surrogate lo = true
                    /\ join_surrogates hi lo = c).
Proof.
  unfold valid_char. intro Hv. apply N.leb_le in Hv. unfold escape_char.
  destruct (c =? 34)%N eqn:E1;
    [apply N.eqb_eq in E1; subst; left; exists 34%N; repeat split|].
  destruct (c =? 92)%N eqn:E2;
    [apply N.eqb_eq in E2; subst; left; exists 92%N; repeat split|].
  destruct (c =? 10)%N eqn:E3;
    [apply N.eqb_eq in E3; subst; left; exists 110%N; repeat split|].
  destruct (c =? 13)%N eqn:E4;
    [apply N.eqb_eq in E4; subst; left; exists 114%N; repeat split|].
  destruct (c =? 9)%N eqn:E5;
    [apply N.eqb_eq in E5; subst; left; exists 116%N; repeat split|].
  destruct (c =? 8)%N eqn:E6;
    [apply N.eqb_eq in E6; subst; left; exists 98%N; repeat split|].
  destruct (c =? 12)%N eqn:E7;
    [apply N.eqb_eq in E7; subst; left; exists 102%N; repeat split|].
  destruct ((32 <=? c) && (c <=? 126))%N eqn:E8.
  - right; left. apply andb_prop in E8. destruct E8 as [E8 _].
    apply N.leb_le in E8. repeat split; try assumption.
    apply N.ltb_ge. assumption.
  - destruct (c <? 65536)%N eqn:E9.
    + right; right; left. apply N.ltb_lt in E9. auto.
    + right; right; right. apply N.ltb_ge in E9.
      exists (55296 + ((c - 65536) / 1024) mod 1024)%N,
             (56320 + (c - 65536) mod 1024)%N.
      split; [reflexivity|].
      split; [lia|]. split; [lia|].
      split; [apply andb_leb_true; lia|].
      split; [apply andb_leb_true; lia|].
      unfold join_surrogates. lia.
Qed.

Lemma is_high_not_low c :
  is_high_surrogate c = true -> is_low_surrogate c = false.
Proof.
  unfold is_high_surrogate, is_low_surrogate. intro H.
  apply andb_prop in H. destruct H as [_ H]. apply N.leb_le in H.
  apply andb_false_intro1. apply N.leb_gt. lia.
Qed.

Lemma no_low_escape_encoded s rest :
  valid_str s = true ->
  match s with c :: _ => is_low_surrogate c = false | [] => True end ->
  no_low_escape (flat_map escape_char s ++ QUOTE :: rest) = true.
Proof.
  destruct s as [|c s]; intros Hv Hc.
  - apply no_low_escape_head1. reflexivity.
  - cbn [valid_str forallb] in Hv. apply andb_prop in Hv. destruct Hv as [Hv _].
    cbn [flat_map].
    destruct (escape_char_cases c Hv)
      as [(e & -> & He & _) | [(-> & _ & Hb & _) | [(-> & Hlt) |
          (hi & lo & -> & Hhi & _ & Hh & _ & _)]]].
    + cbn [app]. apply no_low_escape_head2. assumption.
    + cbn [app]. apply no_low_escape_head1. assumption.
    + rewrite <- app_assoc. apply no_low_escape_u; assumption.
    + rewrite <- !app_assoc. apply no_low_escape_u; [assumption|].
      apply is_high_not_low. assumption.
Qed.

Lemma scanstring_encoded s : forall acc rest,
  valid_str s = true -> no_split_pair s = true ->
  scanstring (flat_map escape_char s ++ QUOTE :: rest) acc
  = Some (rev acc ++ s, rest).
Proof.
  induction s as [|c s IH]; intros acc rest Hv Hp.
  - cbn [flat_map app]. rewrite scanstring_quote, List.app_nil_r. reflexivity.
  - pose proof Hv as Hv'.
    cbn [valid_str forallb] in Hv. apply andb_prop in Hv. destruct Hv as [Hc Hs].
    assert (Hp' : no_split_pair s = true).
    { cbn [no_split_pair] in Hp. destruct s; [reflexivity|].
      apply andb_prop in Hp. apply Hp. }
    assert (Hn : is_high_surrogate c = false
                 \/ no_low_escape (flat_map escape_char s ++ QUOTE :: rest) = true).
    { destruct (is_high_surrogate c) eqn:Eh; [right|left; reflexivity].
      apply no_low_escape_encoded; [assumption|].
      destruct s as [|c' s']; [exact I|].
      cbn [no_split_pair] in Hp. apply andb_prop in Hp. destruct Hp as [Hp _].
      rewrite Eh in Hp. cbn [andb] in Hp.
      destruct (is_low_surrogate c'); [discriminate|reflexivity]. }
    cbn [flat_map].
    replace (rev acc ++ c :: s) with (rev (c :: acc) ++ s)
      by (cbn [rev]; rewrite <- List.app_assoc; reflexivity).
    destruct (escape_char_cases c Hc)
      as [(e & -> & He & Hse) | [(-> & Hq & Hb & H32) | [(-> & Hlt) |
          (hi & lo & -> & Hhi & Hlo & Hh & Hl & <-)]]].
    + cbn [app]. rewrite (scanstring_simple e c) by assumption. apply IH; assumption.
    + cbn [app]. rewrite scanstring_plain by assumption. apply IH; assumption.
    + unfold u_escape. cbn [app].
      rewrite (scanstring_u _ _ _ _ c) by (try apply hex4_u_escape; assumption).
      apply IH; assumption.
    + unfold u_escape. cbn [app].
      rewrite (scanstring_u_pair _ _ _ _ _ _ _ _ hi lo)
        by (try apply hex4_u_escape; assumption).
      apply IH; assumption.
Qed.

Lemma delimited_head c rest :
  delimited (c :: rest) = true ->
  is_digit c = false /\ (c =? DOT)%N = false /\ (c =? 101)%N = false
  /\ (c =? 69)%N = false /\ (c =? MINUS)%N = false /\ (c =? PLUS)%N = false
  /\ is_ws c = false.
Proof.
  cbn [delimited]. intro H.
  apply orb_prop in H. destruct H as [H|H];
    [apply orb_prop in H; destruct H as [H|H]|];
    apply N.eqb_eq in H; subst; repeat split; reflexivity.
Qed.

Lemma take_digits_app s rest d r :
  take_digits s = (d, r) -> delimited rest = true ->
  take_digits (s ++ rest) = (d, r ++ rest).
Proof.
  revert d r; induction s as [|c s IH]; intros d r H Hr.
  - cbn in H. injection H as <- <-. cbn [app].
    destruct rest as [|h t]; [reflexivity|].
    cbn [take_digits]. destruct (delimited_head _ _ Hr) as (-> & _). reflexivity.
  - cbn [app take_digits] in *. destruct (is_digit c).
    + destruct (take_digits s) as [d' r'] eqn:E. injection H as <- <-.
      rewrite (IH _ _ eq_refl Hr). reflexivity.
    + injection H as <- <-. reflexivity.
Qed.

Lemma scan_int_part_app s rest d r :
  scan_int_part s = Some (d, r) -> delimited rest = true ->
  scan_int_part (s ++ rest) = Some (d, r ++ rest).
Proof.
  destruct s as [|c s]; [discriminate|]. cbn [scan_int_part app]. intros H Hr.
  destruct (c =? 48)%N; [injection H as <- <-; reflexivity|].
  destruct (is_digit c); [|discriminate].
  destruct (take_digits s) as [d' r'] eqn:E. injection H as <- <-.
  rewrite (take_digits_app _ _ _ _ E Hr). reflexivity.
Qed.

Lemma scan_frac_part_app s rest d r :
  scan_frac_part s = (d, r) -> delimited rest = true ->
  scan_frac_part (s ++ rest) = (d, r ++ rest).
Proof.
  intros H Hr.
  destruct s as [|dot [|c s]]; cbn [scan_frac_part app] in *.
  - injection H as <- <-.
    destruct rest as [|h [|h2 t]]; try reflexivity.
    cbn [scan_frac_part]. destruct (delimited_head _ _ Hr) as (_ & -> & _).
    reflexivity.
  - injection H as <- <-.
    destruct rest as [|h t]; [reflexivity|].
    destruct (delimited_head _ _ Hr) as (-> & _).
    rewrite andb_false_r. reflexivity.
  - destruct ((dot =? DOT)%N && is_digit c).
    + destruct (take_digits s) as [d' r'] eqn:E. injection H as <- <-.
      rewrite (take_digits_app _ _ _ _ E Hr). reflexivity.
    + injection H as <- <-. reflexivity.
Qed.

Lemma take_digits_delimited rest :
  delimited rest = true -> take_digits rest = ([], rest).
Proof.
  intro Hr. destruct rest as [|h t]; [reflexivity|].
  cbn [take_digits]. destruct (delimited_head _ _ Hr) as (-> & _). reflexivity.
Qed.

Lemma scan_exp_part_app s rest x r :
  scan_exp_part s = (x, r) -> delimited rest = true ->
  scan_exp_part (s ++ rest) = (x, r ++ rest).
Proof.
  intros H Hr.
  destruct s as [|e s].
  - cbn in H. injection H as <- <-. cbn [app].
    destruct rest as [|h t]; [reflexivity|]. cbn [scan_exp_part].
    destruct (delimited_head _ _ Hr) as (_ & _ & -> & -> & _). reflexivity.
  - cbn [scan_exp_part app] in *.
    destruct ((e =? 101) || (e =? 69))%N; [|injection H as <- <-; reflexivity].
    destruct s as [|sg t]; cbn [app].
    + cbn in H. injection H as <- <-.
      destruct rest as [|h t].
      * reflexivity.
      * destruct (delimited_head _ _ Hr) as (_ & _ & _ & _ & -> & -> & _).
        rewrite (take_digits_delimited _ Hr). reflexivity.
    + destruct (sg =? MINUS)%N.
      * destruct (take_digits t) as [d' r'] eqn:E.
        rewrite (take_digits_app _ _ _ _ E Hr).
        destruct d'; injection H as <- <-; reflexivity.
      * destruct (sg =? PLUS)%N.
        -- destruct (take_digits t) as [d' r'] eqn:E.
           rewrite (take_digits_app _ _ _ _ E Hr).
           destruct d'; injection H as <- <-; reflexivity.
        -- destruct (take_digits (sg :: t)) as [d' r'] eqn:E.
           change (sg :: t ++ rest) with ((sg :: t) ++ rest).
           rewrite (take_digits_app _ _ _ _ E Hr).
           destruct d'; injection H as <- <-; reflexivity.
Qed.

(** A number literal is scanned the same when a delimiter follows it. *)
Lemma match_number_app s rest v r :
  match_number s = Some (v, r) -> delimited rest = true ->
  match_number (s ++ rest) = Some (v, r ++ rest).
Proof.
  unfold match_number. intros H Hr.
  assert (Hs : forall neg s1, scan_sign s = (neg, s1) ->
                 scan_int_part s1 <> None ->
                 scan_sign (s ++ rest) = (neg, s1 ++ rest)).
  { intros neg s1 E Hn. destruct s as [|c s'].
    - cbn in E. injection E as <- <-. contradiction Hn. reflexivity.
    - cbn [scan_sign app] in *. destruct (c =? MINUS)%N; injection E as <- <-;
        reflexivity. }
  destruct (scan_sign s) as [neg s1] eqn:E1.
  destruct (scan_int_part s1) as [[idig s3]|] eqn:E2; [|discriminate].
  rewrite (Hs _ _ eq_refl) by (rewrite E2; discriminate).
  rewrite (scan_int_part_app _ _ _ _ E2 Hr).
  destruct (scan_frac_part s3) as [fdig s4] eqn:E3.
  rewrite (scan_frac_part_app _ _ _ _ E3 Hr).
  destruct (scan_exp_part s4) as [exp s5] eqn:E4.
  rewrite (scan_exp_part_app _ _ _ _ E4 Hr).
  destruct fdig, exp; injection H as <- <-; reflexivity.
Qed.

Lemma uint_of_digits_of_uint u : uint_of_digits (digits_of_uint u) = u.
Proof.
  induction u; cbn [digits_of_uint uint_of_digits]; try reflexivity;
    rewrite IHu; reflexivity.
Qed.

Lemma take_digits_of_uint u :
  take_digits (digits_of_uint u) = (digits_of_uint u, []).
Proof.
  induction u; cbn [digits_of_uint take_digits]; try reflexivity;
    rewrite IHu; reflexivity.
Qed.

Lemma nzhead_not_D0 u u' : Decimal.nzhead u <> Decimal.D0 u'.
Proof. induction u; cbn; try discriminate. assumption. Qed.

(** The decimal digits of a positive number do not start with a zero. *)
Lemma to_uint_head p :
  match Pos.to_uint p with
  | Decimal.Nil => False
  | Decimal.D0 _ => False
  | _ => True
  end.
Proof.
  pose proof (DecimalPos.Unsigned.to_of (Pos.to_uint p)) as H.
  rewrite DecimalPos.Unsigned.of_to in H. cbn [N.to_uint] in H.
  pose proof (DecimalPos.Unsigned.to_uint_nonnil p) as Hn.
  pose proof (DecimalPos.Unsigned.to_uint_nonzero p) as Hz.
  destruct (Pos.to_uint p) as [|u| | | | | | | | |]; auto.
  unfold Decimal.unorm in H. cbn [Decimal.nzhead] in H.
  destruct (Decimal.nzhead u) eqn:E; try discriminate.
  - injection H as H. subst u. apply Hz. reflexivity.
  - exfalso. apply (nzhead_not_D0 u u0). assumption.
Qed.

Lemma match_number_digits (neg : bool) u :
  match u with Decimal.Nil | Decimal.D0 _ => False | _ => True end ->
  match_number ((if neg then [MINUS] else []) ++ digits_of_uint u)%list
  = Some (PyInt (if neg then (- Z.of_N (N.of_uint u))%Z
                 else Z.of_N (N.of_uint u)), []).
Proof.
  intro H. unfold match_number.
  assert (E1 : scan_sign ((if neg then [MINUS] else []) ++ digits_of_uint u)%list
               = (neg, digits_of_uint u)).
  { destruct neg; [reflexivity|]. destruct u; try contradiction; reflexivity. }
  rewrite E1.
  assert (E2 : scan_int_part (digits_of_uint u) = Some (digits_of_uint u, [])).
  { destruct u; try contradiction; cbn [digits_of_uint scan_int_part];
      change (is_digit _) with true; cbv beta match;
      match goal with
      | |- context [(?c =? 48)%N] => change (c =? 48)%N with false
      end; cbv beta match; rewrite take_digits_of_uint; reflexivity. }
  rewrite E2. cbn [scan_frac_part scan_exp_part].
  unfold int_of_literal, decimal_value. rewrite uint_of_digits_of_uint.
  reflexivity.
Qed.

Lemma match_number_repr_int z :
  match_number (repr_int z) = Some (PyInt z, []).
Proof.
  destruct z as [|p|p]; [reflexivity| |].
  - pose proof (match_number_digits false (Pos.to_uint p) (to_uint_head p)) as H.
    cbn [app] in H. unfold repr_int. rewrite H.
    change (N.of_uint (Pos.to_uint p)) with (Pos.of_uint (Pos.to_uint p)).
    rewrite DecimalPos.Unsigned.of_to. reflexivity.
  - pose proof (match_number_digits true (Pos.to_uint p) (to_uint_head p)) as H.
    cbn [app] in H. unfold repr_int. rewrite H.
    change (N.of_uint (Pos.to_uint p)) with (Pos.of_uint (Pos.to_uint p)).
    rewrite DecimalPos.Unsigned.of_to. reflexivity.
Qed.

(** ** Floats that are not finite *)

Lemma is_nan_eq f : is_nan f = true -> f = nan.
Proof.
  unfold is_nan. intro H. apply negb_true_iff in H.
  rewrite eqb_spec in H. unfold SFeqb in H.
  apply Prim2SF_inj. change (Prim2SF nan) with S754_nan.
  destruct (Prim2SF f) as [s|s| |s m e] eqn:E; try reflexivity;
    rewrite SFcompare_refl in H by discriminate; discriminate.
Qed.

Lemma eqb_infinity_eq f : (f =? infinity)%float = true -> f = infinity.
Proof.
  rewrite eqb_spec. unfold SFeqb. intro H.
  apply Prim2SF_inj. change (Prim2SF infinity) with (S754_infinity false) in *.
  destruct (Prim2SF f) as [s|s| |s m e]; try destruct s; cbn in H;
    try discriminate; reflexivity.
Qed.

Lemma eqb_neg_infinity_eq f :
  (f =? neg_infinity)%float = true -> f = neg_infinity.
Proof.
  rewrite eqb_spec. unfold SFeqb. intro H.
  apply Prim2SF_inj. change (Prim2SF neg_infinity) with (S754_infinity true) in *.
  destruct (Prim2SF f) as [s|s| |s m e]; try destruct s; cbn in H;
    try discriminate; reflexivity.
Qed.

(** ** The head of a number literal *)

Lemma is_digit_cases c :
  is_digit c = true ->
  (c = 48 \/ c = 49 \/ c = 50 \/ c = 51 \/ c = 52 \/ c = 53 \/ c = 54
   \/ c = 55 \/ c = 56 \/ c = 57)%N.
Proof.
  unfold is_digit. intro H. apply andb_prop in H. destruct H as [H1 H2].
  apply N.leb_le in H1. apply N.leb_le in H2. lia.
Qed.

Lemma match_number_head s v r :
  match_number s = Some (v, r) ->
  (exists c tl, s = c :: tl /\ is_digit c = true)
  \/ (exists d tl, s = MINUS :: d :: tl /\ is_digit d = true).
Proof.
  unfold match_number, scan_sign. intro H.
  destruct s as [|c s]; [discriminate|].
  assert (D : forall x tl, scan_int_part (x :: tl) <> None -> is_digit x = true).
  { intros x tl. cbn [scan_int_part].
    destruct (x =? 48)%N eqn:E; [apply N.eqb_eq in E; subst; reflexivity|].
    destruct (is_digit x); [reflexivity|]. intro F. contradiction F. reflexivity. }
  destruct (c =? MINUS)%N eqn:E.
  - apply N.eqb_eq in E. subst. right.
    destruct s as [|d tl]; [discriminate|].
    exists d, tl. split; [reflexivity|]. apply (D d tl).
    destruct (scan_int_part (d :: tl)); [discriminate|discriminate].
  - left. exists c, s. split; [reflexivity|]. apply (D c s).
    destruct (scan_int_part (c :: s)); [discriminate|discriminate].
Qed.

Lemma scan_once_digit fuel c tl :
  is_digit c = true ->
  scan_once (S fuel) (c :: tl)
  = match match_number (c :: tl) with
    | Some (v, r) => Found v r
    | None => Fail
    end.
Proof.
  intro H.
  destruct (is_digit_cases c H) as [->|[->|[->|[->|[->|[->|[->|[->|[->| ->]]]]]]]]];
    reflexivity.
Qed.

Lemma scan_once_minus_digit fuel d tl :
  is_digit d = true ->
  scan_once (S fuel) (MINUS :: d :: tl)
  = match match_number (MINUS :: d :: tl) with
    | Some (v, r) => Found v r
    | None => Fail
    end.
Proof.
  intro H.
  destruct (is_digit_cases d H) as [->|[->|[->|[->|[->|[->|[->|[->|[->| ->]]]]]]]]];
    reflexivity.
Qed.

(** A number literal followed by a delimiter is scanned as that number. *)
Lemma scan_once_number fuel s v rest :
  match_number s = Some (v, []) -> delimited rest = true ->
  scan_once (S fuel) (s ++ rest) = Found v rest.
Proof.
  intros H Hr. pose proof (match_number_app _ _ _ _ H Hr) as Happ.
  cbn [app] in Happ.
  destruct (match_number_head _ _ _ H) as [(c & tl & -> & Hc)|(d & tl & -> & Hd)];
    cbn [app] in *.
  - rewrite scan_once_digit by assumption. rewrite Happ. reflexivity.
  - rewrite scan_once_minus_digit by assumption. rewrite Happ. reflexivity.
Qed.

(** ** Induction on values *)

Lemma pyval_induction (P : pyval -> Prop) :
  P PyNone ->
  (forall b, P (PyBool b)) ->
  (forall z, P (PyInt z)) ->
  (forall f, P (PyFloat f)) ->
  (forall s, P (PyStr s)) ->
  (forall l, Forall P l -> P (PyList l)) ->
  (forall d, Forall (fun kv => P (snd kv)) d -> P (PyDict d)) ->
  forall v, P v.
Proof.
  intros HN HB HI HF HS HL HD.
  fix IH 1. intros [ |b|z|f|s|l|d].
  - exact HN.
  - apply HB.
  - apply HI.
  - apply HF.
  - apply HS.
  - apply HL. induction l as [|x l IHl]; constructor; [apply IH|exact IHl].
  - apply HD. induction d as [|[k x] d IHd]; constructor; [apply IH|exact IHd].
Qed.

(** ** The head of a serialized value *)

Lemma digit_opens_value c tl : is_digit c = true -> opens_value (c :: tl).
Proof.
  intro H. exists c, tl. split; [reflexivity|].
  destruct (is_digit_cases c H) as [->|[->|[->|[->|[->|[->|[->|[->|[->| ->]]]]]]]]];
    repeat split; reflexivity.
Qed.

Lemma number_opens_value s v r : match_number s = Some (v, r) -> opens_value s.
Proof.
  intro H.
  destruct (match_number_head _ _ _ H) as [(c & tl & -> & Hc)|(d & tl & -> & Hd)].
  - apply digit_opens_value. assumption.
  - exists MINUS. eexists. repeat split.
Qed.

Lemma float_scans_back_finite repr f :
  float_scans_back repr f = true ->
  is_nan f = false -> (f =? infinity)%float = false ->
  (f =? neg_infinity)%float = false ->
  match_number (repr f) = Some (PyFloat f, []).
Proof.
  unfold float_scans_back. intros H E1 E2 E3. rewrite E1, E2, E3 in H.
  cbn [orb] in H.
  destruct (match_number (repr f)) as [[[ | | |g| | |] [|]]|]; try discriminate.
  apply FloatAxioms.Leibniz.eqb_spec in H. subst. reflexivity.
Qed.

Lemma encode_opens_value repr v :
  writable repr v = true -> opens_value (encode repr v).
Proof.
  destruct v as [ |b|z|f|s|l|d]; intro H.
  - repeat eexists.
  - destruct b; repeat eexists.
  - apply (number_opens_value _ _ _ (match_number_repr_int z)).
  - cbn [encode]. unfold encode_float.
    destruct (is_nan f) eqn:E1; [repeat eexists|].
    destruct (f =? infinity)%float eqn:E2; [repeat eexists|].
    destruct (f =? neg_infinity)%float eqn:E3; [repeat eexists|].
    apply (number_opens_value _ _ _ (float_scans_back_finite _ _ H E1 E2 E3)).
  - repeat eexists.
  - repeat eexists.
  - repeat eexists.
Qed.

Lemma skip_ws_opens s : opens_value s -> skip_ws s = s.
Proof. intros (c & tl & -> & H & _). cbn [skip_ws]. rewrite H. reflexivity. Qed.

Lemma opens_value_app s t : opens_value s -> opens_value (s ++ t).
Proof. intros (c & tl & -> & H). exists c, (tl ++ t). split; [reflexivity|exact H]. Qed.

(** ** Keys *)

Lemma str_eqb_refl a : str_eqb a a = true.
Proof. induction a; cbn; [reflexivity|]. rewrite N.eqb_refl. assumption. Qed.

Lemma str_eqb_sym a : forall b, str_eqb a b = str_eqb b a.
Proof.
  induction a as [|x a IH]; intros [|y b]; cbn; try reflexivity.
  rewrite N.eqb_sym, IH. reflexivity.
Qed.

Lemma dict_set_fresh k v acc :
  existsb (fun kv => str_eqb k (fst kv)) acc = false ->
  dict_set k v acc = acc ++ [(k, v)].
Proof.
  induction acc as [|[k' v'] acc IH]; cbn; [reflexivity|].
  intro H. apply orb_false_elim in H. destruct H as [H1 H2].
  rewrite H1, (IH H2). reflexivity.
Qed.

Lemma keys_distinct_app_head acc k v d :
  keys_distinct (acc ++ (k, v) :: d) = true ->
  existsb (fun kv => str_eqb k (fst kv)) acc = false
  /\ keys_distinct ((acc ++ [(k, v)]) ++ d) = true.
Proof.
  intro H. split.
  - induction acc as [|[k' v'] acc IH]; [reflexivity|].
    cbn [app keys_distinct] in H. apply andb_prop in H. destruct H as [H1 H2].
    cbn [existsb fst]. rewrite (IH H2), orb_false_r.
    apply negb_true_iff in H1. rewrite existsb_app in H1.
    apply orb_false_elim in H1. destruct H1 as [_ H1].
    cbn [existsb fst] in H1. apply orb_false_elim in H1.
    rewrite str_eqb_sym. apply H1.
  - rewrite <- List.app_assoc. exact H.
Qed.

(** ** Reading back a serialized value *)

Lemma scan_once_quote fuel s :
  scan_once (S fuel) (QUOTE :: s)
  = match scanstring s [] with
    | Some (v, r) => Found (PyStr v) r
    | None => Fail
    end.
Proof. reflexivity. Qed.

Lemma scan_once_lbracket fuel s :
  scan_once (S fuel) (LBRACKET :: s)
  = match skip_ws s with
    | c' :: r =>
        if (c' =? RBRACKET)%N then Found (PyList []) r
        else parse_elements fuel (c' :: r) []
    | [] => Fail
    end.
Proof. reflexivity. Qed.

Lemma scan_once_lbrace fuel s :
  scan_once (S fuel) (LBRACE :: s)
  = match skip_ws s with
    | c' :: r =>
        if (c' =? RBRACE)%N then Found (PyDict []) r
        else parse_members fuel (c' :: r) []
    | [] => Fail
    end.
Proof. reflexivity. Qed.

Lemma encode_items_cons repr x l :
  encode_items repr (x :: l)
  = encode repr x ++ match l with
                     | [] => []
                     | _ :: _ => COMMA :: 32%N :: encode_items repr l
                     end.
Proof. destruct l; reflexivity. Qed.

Lemma encode_members_cons repr k x d :
  encode_members repr ((k, x) :: d)
  = QUOTE :: flat_map escape_char k
    ++ QUOTE :: COLON :: 32%N :: encode repr x
    ++ match d with
       | [] => []
       | _ :: _ => COMMA :: 32%N :: encode_members repr d
       end.
Proof.
  destruct d; cbn [encode_members]; unfold encode_string;
    cbn [app str_of]; rewrite <- !List.app_assoc; reflexivity.
Qed.

Lemma items_open repr x l tl :
  writable repr x = true -> opens_value (encode_items repr (x :: l) ++ tl).
Proof.
  intro H. rewrite encode_items_cons, <- List.app_assoc.
  apply opens_value_app, encode_opens_value. assumption.
Qed.

Lemma elements_read_back repr l :
  Forall (fun x => writable repr x = true -> reads_back repr x) l ->
  forallb (writable repr) l = true ->
  l <> [] ->
  forall fuel acc rest,
    delimited rest = true ->
    parse_elements fuel (encode_items repr l ++ RBRACKET :: rest) acc = Starved
    \/ parse_elements fuel (encode_items repr l ++ RBRACKET :: rest) acc
       = Found (PyList (rev acc ++ l)) rest.
Proof.
  induction l as [|x l IHl]; intros HP Hw Hne fuel acc rest Hr; [contradiction|].
  inversion HP as [|? ? Px Pl]; subst.
  cbn [forallb] in Hw. apply andb_prop in Hw. destruct Hw as [Hx Hl].
  destruct fuel as [|fuel]; [left; reflexivity|].
  rewrite encode_items_cons, <- List.app_assoc.
  cbn [parse_elements].
  destruct l as [|y l'].
  - cbn [app].
    destruct (Px Hx fuel (RBRACKET :: rest) eq_refl) as [-> | ->];
      [left; reflexivity|right].
    reflexivity.
  - cbn [app].
    destruct (Px Hx fuel (COMMA :: 32%N :: encode_items repr (y :: l')
                                ++ RBRACKET :: rest) eq_refl) as [-> | ->];
      [left; reflexivity|].
    change (skip_ws (COMMA :: ?t)) with (COMMA :: t).
    cbv beta match.
    change (COMMA =? RBRACKET)%N with false.
    change (COMMA =? COMMA)%N with true. cbv beta match.
    change (skip_ws (32%N :: ?t)) with (skip_ws t).
    cbn [forallb] in Hl. pose proof Hl as Hl'.
    apply andb_prop in Hl'. destruct Hl' as [Hy _].
    rewrite (skip_ws_opens _ (items_open repr y l' _ Hy)).
    destruct (IHl Pl Hl ltac:(discriminate) fuel (x :: acc) rest Hr) as [-> | ->];
      [left; reflexivity|right].
    cbn [rev]. rewrite <- List.app_assoc. reflexivity.
Qed.

Lemma members_open repr k x d tl :
  opens_value (encode_members repr ((k, x) :: d) ++ tl).
Proof. rewrite encode_members_cons. repeat eexists. Qed.

Lemma members_read_back repr d :
  Forall (fun kv => writable repr (snd kv) = true -> reads_back repr (snd kv)) d ->
  forallb (fun kv => valid_str (fst kv) && no_split_pair (fst kv)
                     && writable repr (snd kv)) d = true ->
  d <> [] ->
  forall fuel acc rest,
    keys_distinct (acc ++ d) = true ->
    delimited rest = true ->
    parse_members fuel (encode_members repr d ++ RBRACE :: rest) acc = Starved
    \/ parse_members fuel (encode_members repr d ++ RBRACE :: rest) acc
       = Found (PyDict (acc ++ d)) rest.
Proof.
  induction d as [|[k x] d IHd]; intros HP Hw Hne fuel acc rest Hk Hr;
    [contradiction|].
  inversion HP as [|? ? Px Pd]; subst. cbn [snd] in Px.
  cbn [forallb fst snd] in Hw. apply andb_prop in Hw. destruct Hw as [Hkx Hd].
  apply andb_prop in Hkx. destruct Hkx as [Hkv Hx].
  apply andb_prop in Hkv. destruct Hkv as [Hv Hs].
  destruct (keys_distinct_app_head _ _ _ _ Hk) as [Hfresh Hk'].
  destruct fuel as [|fuel]; [left; reflexivity|].
  rewrite encode_members_cons. cbn [app]. rewrite <- !List.app_assoc.
  cbn [app]. rewrite <- !List.app_assoc.
  cbn [parse_members]. change (QUOTE =? QUOTE)%N with true. cbv beta match.
  rewrite (scanstring_encoded k [] _ Hv Hs). cbn [rev app].
  change (skip_ws (COLON :: ?t)) with (COLON :: t). cbv beta match.
  change (COLON =? COLON)%N with true. cbv beta match.
  change (skip_ws (32%N :: ?t)) with (skip_ws t).
  rewrite (skip_ws_opens _ (opens_value_app _ _ (encode_opens_value repr x Hx))).
  destruct d as [|[k' y] d'].
  - cbn [app].
    destruct (Px Hx fuel (RBRACE :: rest) eq_refl) as [-> | ->];
      [left; reflexivity|right].
    cbv zeta. rewrite (dict_set_fresh _ _ _ Hfresh). reflexivity.
  - cbn [app].
    destruct (Px Hx fuel (COMMA :: 32%N :: encode_members repr ((k', y) :: d')
                                ++ RBRACE :: rest) eq_refl) as [-> | ->];
      [left; reflexivity|].
    cbv zeta. rewrite (dict_set_fresh _ _ _ Hfresh).
    change (skip_ws (COMMA :: ?t)) with (COMMA :: t). cbv beta match.
    change (COMMA =? RBRACE)%N with false.
    change (COMMA =? COMMA)%N with true. cbv beta match.
    change (skip_ws (32%N :: ?t)) with (skip_ws t).
    rewrite (skip_ws_opens _ (members_open repr k' y d' _)).
    destruct (IHd Pd Hd ltac:(discriminate) fuel (acc ++ [(k, x)]) rest Hk' Hr)
      as [-> | ->]; [left; reflexivity|right].
    rewrite <- List.app_assoc. reflexivity.
Qed.

(** Every writable value is read back from its serialization. *)
Lemma value_reads_back repr v : writable repr v = true -> reads_back repr v.
Proof.
  induction v as [ |b|z|f|s|l IHl|d IHd] using pyval_induction;
    intros Hw fuel rest Hr; (destruct fuel as [|fuel]; [left; reflexivity|]).
  - right. reflexivity.
  - right. destruct b; reflexivity.
  - right. apply scan_once_number; [apply match_number_repr_int|assumption].
  - right. cbn [encode]. unfold encode_float. cbn [writable] in Hw.
    destruct (is_nan f) eqn:E1; [rewrite (is_nan_eq f E1); reflexivity|].
    destruct (f =? infinity)%float eqn:E2;
      [rewrite (eqb_infinity_eq f E2); reflexivity|].
    destruct (f =? neg_infinity)%float eqn:E3;
      [rewrite (eqb_neg_infinity_eq f E3); reflexivity|].
    apply scan_once_number; [|assumption].
    apply float_scans_back_finite; assumption.
  - right. cbn [writable] in Hw. apply andb_prop in Hw. destruct Hw as [Hv Hs].
    cbn [encode]. unfold encode_string. cbn [app]. rewrite <- List.app_assoc.
    cbn [app]. rewrite scan_once_quote, (scanstring_encoded s [] _ Hv Hs).
    reflexivity.
  - cbn [writable] in Hw.
    change (encode repr (PyList l))
      with (LBRACKET :: encode_items repr l ++ [RBRACKET]).
    cbn [app]. rewrite <- List.app_assoc. cbn [app]. rewrite scan_once_lbracket.
    destruct l as [|x l']; [right; reflexivity|].
    pose proof Hw as Hw'. cbn [forallb] in Hw'. apply andb_prop in Hw'.
    destruct Hw' as [Hx _].
    rewrite (skip_ws_opens _ (items_open repr x l' _ Hx)).
    destruct (items_open repr x l' (RBRACKET :: rest) Hx)
      as (c & tl & E & Hc & Hb & _).
    rewrite E, Hb, <- E.
    apply (elements_read_back repr (x :: l') IHl Hw ltac:(discriminate)
             fuel [] rest Hr).
  - cbn [writable] in Hw. apply andb_prop in Hw. destruct Hw as [Hk Hw].
    change (encode repr (PyDict d))
      with (LBRACE :: encode_members repr d ++ [RBRACE]).
    cbn [app]. rewrite <- List.app_assoc. cbn [app]. rewrite scan_once_lbrace.
    destruct d as [|[k x] d']; [right; reflexivity|].
    rewrite (skip_ws_opens _ (members_open repr k x d' _)).
    destruct (members_open repr k x d' (RBRACE :: rest))
      as (c & tl & E & Hc & _ & Hb).
    rewrite E, Hb, <- E.
    apply (members_read_back repr ((k, x) :: d') IHd Hw ltac:(discriminate)
             fuel [] rest Hk Hr).
Qed.

(** [json.loads] undoes [json.dumps] on writable values. *)
Lemma loads_dumps repr v :
  writable repr v = true -> json_loads (json_dumps repr v) = Return v.
Proof.
  intro H. unfold json_loads, json_dumps.
  pose proof (budget_suffices (encode repr v)) as B.
  rewrite (skip_ws_opens _ (encode_opens_value repr v H)) in *.
  pose proof (value_reads_back repr v H (budget (encode repr v)) [] eq_refl) as R.
  rewrite List.app_nil_r in R.
  destruct R as [R|R]; [contradiction|]. rewrite R. reflexivity.
Qed.

(** ** What the decoder builds *)

Lemma forallb_andb {A} (f g : A -> bool) l :
  forallb (fun x => f x && g x) l = forallb f l && forallb g l.
Proof.
  induction l as [|x l IH]; cbn; [reflexivity|]. rewrite IH.
  destruct (f x), (g x), (forallb f l); reflexivity.
Qed.

Lemma sound_list l : sound (PyList l) = forallb sound l.
Proof. unfold sound. cbn. symmetry. apply forallb_andb. Qed.

Lemma sound_dict d :
  sound (PyDict d)
  = keys_distinct d && forallb (fun kv => valid_str (fst kv) && sound (snd kv)) d.
Proof.
  unfold sound. cbn [all_strings all_dicts_distinct].
  induction d as [|[k x] d IH]; [reflexivity|].
  cbn [keys_distinct forallb fst snd] in *.
  destruct (existsb _ d); cbn [negb andb]; [apply andb_false_r|].
  destruct (keys_distinct d); cbn [andb] in *;
    [|rewrite !andb_false_r; reflexivity].
  rewrite <- IH.
  destruct (valid_str k), (all_strings valid_str x), (all_dicts_distinct x);
    cbn [andb]; try reflexivity; rewrite ?andb_false_r; reflexivity.
Qed.

Lemma str_eqb_eq a : forall b, str_eqb a b = true -> a = b.
Proof.
  induction a as [|x a IH]; intros [|y b] H; cbn in H; try discriminate;
    [reflexivity|].
  apply andb_prop in H. destruct H as [H1 H2].
  apply N.eqb_eq in H1. rewrite (IH _ H2), H1. reflexivity.
Qed.

Lemma existsb_dict_set x k v d :
  existsb (fun kv => str_eqb x (fst kv)) (dict_set k v d)
  = existsb (fun kv => str_eqb x (fst kv)) d || str_eqb x k.
Proof.
  induction d as [|[k' v'] d IH]; cbn [dict_set existsb fst].
  - apply orb_comm.
  - destruct (str_eqb k k') eqn:E.
    + apply str_eqb_eq in E. subst. cbn [existsb fst].
      destruct (str_eqb x k'), (existsb _ d); reflexivity.
    + cbn [existsb fst]. rewrite IH. rewrite orb_assoc. reflexivity.
Qed.

Lemma keys_distinct_dict_set k v d :
  keys_distinct d = true -> keys_distinct (dict_set k v d) = true.
Proof.
  induction d as [|[k' v'] d IH]; intro H; cbn [dict_set]; [reflexivity|].
  cbn [keys_distinct] in H. apply andb_prop in H. destruct H as [H1 H2].
  destruct (str_eqb k k') eqn:E.
  - apply str_eqb_eq in E. subst. cbn [keys_distinct]. rewrite H1, H2. reflexivity.
  - cbn [keys_distinct]. rewrite (IH H2), existsb_dict_set.
    apply negb_true_iff in H1. rewrite H1, str_eqb_sym, E. reflexivity.
Qed.

Lemma forallb_dict_set (P : str * pyval -> bool) k v d :
  P (k, v) = true -> forallb P d = true -> forallb P (dict_set k v d) = true.
Proof.
  intro Hk. induction d as [|[k' v'] d IH]; intro H; cbn [dict_set forallb].
  - rewrite Hk. reflexivity.
  - cbn [forallb] in H. apply andb_prop in H. destruct H as [H1 H2].
    destruct (str_eqb k k'); cbn [forallb].
    + rewrite Hk, H2. reflexivity.
    + rewrite H1, (IH H2). reflexivity.
Qed.

Lemma sound_dict_set k v d :
  valid_str k = true -> sound v = true -> sound (PyDict d) = true ->
  sound (PyDict (dict_set k v d)) = true.
Proof.
  rewrite !sound_dict. intros Hk Hv H.
  apply andb_prop in H. destruct H as [H1 H2].
  rewrite (keys_distinct_dict_set _ _ _ H1).
  rewrite forallb_dict_set; [reflexivity| |assumption].
  cbn [fst snd]. rewrite Hk, Hv. reflexivity.
Qed.

Lemma valid_str_app a b :
  valid_str (a ++ b) = valid_str a && valid_str b.
Proof. apply forallb_app. Qed.

Lemma valid_str_rev a : valid_str (rev a) = valid_str a.
Proof.
  induction a as [|x a IH]; [reflexivity|].
  cbn [rev]. rewrite valid_str_app, IH. cbn. rewrite andb_true_r. apply andb_comm.
Qed.

Lemma forallb_rev {A} (f : A -> bool) l : forallb f (rev l) = forallb f l.
Proof.
  induction l as [|x l IH]; [reflexivity|].
  cbn [rev]. rewrite forallb_app, IH. cbn. rewrite andb_true_r. apply andb_comm.
Qed.

Lemma skip_ws_valid s : valid_str s = true -> valid_str (skip_ws s) = true.
Proof.
  induction s as [|c s IH]; [reflexivity|]. intro H. cbn [skip_ws].
  destruct (is_ws c); [|assumption].
  apply IH. cbn in H. apply andb_prop in H. apply H.
Qed.

Lemma starts_with_valid p s r :
  starts_with p s = Some r -> valid_str s = true -> valid_str r = true.
Proof.
  revert s; induction p as [|x p IH]; intros [|y s] H Hv; cbn in H;
    try discriminate; try (injection H as <-; assumption).
  destruct (x =? y)%N; [|discriminate].
  apply (IH _ H). cbn in Hv. apply andb_prop in Hv. apply Hv.
Qed.

Lemma take_digits_valid s d r :
  take_digits s = (d, r) -> valid_str s = true -> valid_str r = true.
Proof.
  revert d r; induction s as [|c s IH]; intros d r H Hv; cbn in H.
  - injection H as <- <-. reflexivity.
  - destruct (is_digit c).
    + destruct (take_digits s) as [d' r'] eqn:E. injection H as <- <-.
      apply (IH _ _ eq_refl). cbn in Hv. apply andb_prop in Hv. apply Hv.
    + injection H as <- <-. assumption.
Qed.

Lemma hex_value_bound c x : hex_value c = Some x -> (x < 16)%N.
Proof.
  unfold hex_value, is_digit. intro H.
  destruct ((48 <=? c) && (c <=? 57))%N eqn:E1.
  - injection H as <-. apply andb_prop in E1. destruct E1 as [A B].
    apply N.leb_le in A. apply N.leb_le in B. lia.
  - destruct ((97 <=? c) && (c <=? 102))%N eqn:E2.
    + injection H as <-. apply andb_prop in E2. destruct E2 as [A B].
      apply N.leb_le in A. apply N.leb_le in B. lia.
    + destruct ((65 <=? c) && (c <=? 70))%N eqn:E3; [|discriminate].
      injection H as <-. apply andb_prop in E3. destruct E3 as [A B].
      apply N.leb_le in A. apply N.leb_le in B. lia.
Qed.

Lemma hex4_valid a b c d u : hex4 a b c d = Some u -> valid_char u = true.
Proof.
  unfold hex4. intro H.
  destruct (hex_value a) as [x3|] eqn:E3; [|discriminate].
  destruct (hex_value b) as [x2|] eqn:E2; [|discriminate].
  destruct (hex_value c) as [x1|] eqn:E1; [|discriminate].
  destruct (hex_value d) as [x0|] eqn:E0; [|discriminate].
  injection H as <-.
  apply hex_value_bound in E3, E2, E1, E0.
  apply N.leb_le. lia.
Qed.

Lemma simple_escape_valid e ch : simple_escape e = Some ch -> valid_char ch = true.
Proof.
  unfold simple_escape. intro H.
  repeat match type of H with
         | context [if ?b then _ else _] => destruct b
         end; try discriminate; injection H as <-; reflexivity.
Qed.

Lemma join_surrogates_valid hi lo :
  is_high_surrogate hi = true -> is_low_surrogate lo = true ->
  valid_char (join_surrogates hi lo) = true.
Proof.
  unfold is_high_surrogate, is_low_surrogate, join_surrogates, valid_char.
  intros H L. apply andb_prop in H. apply andb_prop in L.
  destruct H as [H1 H2], L as [L1 L2].
  apply N.leb_le in H1, H2, L1, L2. apply N.leb_le. lia.
Qed.

Lemma valid_str_cons c s :
  valid_str (c :: s) = true -> valid_char c = true /\ valid_str s = true.
Proof. cbn. apply andb_prop. Qed.

(** The validity of a suffix of a valid text. *)
Ltac suffix_valid Hv :=
  let H := fresh in
  pose proof Hv as H;
  repeat first [ exact H | apply valid_str_cons in H; destruct H as [_ H] ].

Lemma scanstring_valid n : forall s acc v r,
  (List.length s <= n)%nat ->
  scanstring s acc = Some (v, r) ->
  valid_str s = true -> valid_str acc = true ->
  valid_str v = true /\ valid_str r = true.
Proof.
  induction n as [|n IH]; intros s acc v r Hn H Hv Ha.
  - destruct s; [discriminate|simpl in Hn; lia].
  - destruct s as [|c s1]; [discriminate|].
    pose proof (proj1 (valid_str_cons _ _ Hv)) as Hc.
    simpl in H.
    repeat (break_match_hyp H; subst; cbv beta match in H; try discriminate);
      repeat match goal with
             | E : hex4 _ _ _ _ = Some _ |- _ => apply hex4_valid in E
             | E : simple_escape _ = Some _ |- _ => apply simple_escape_valid in E
             end.
    all: try (injection H as <- <-; split;
              [rewrite valid_str_rev; assumption | suffix_valid Hv]).
    all: eapply IH in H; [exact H | cbn [List.length] in *; lia
                         | suffix_valid Hv | ].
    all: cbn [valid_str forallb];
      try rewrite join_surrogates_valid by assumption;
      repeat match goal with
             | E : valid_char ?x = true |- context [valid_char ?x] => rewrite E
             end; exact Ha.
Qed.

Lemma scan_sign_valid s neg s1 :
  scan_sign s = (neg, s1) -> valid_str s = true -> valid_str s1 = true.
Proof.
  destruct s as [|c s]; cbn [scan_sign]; intros H Hv.
  - injection H as <- <-. reflexivity.
  - destruct (c =? MINUS)%N; injection H as <- <-; suffix_valid Hv.
Qed.

Lemma scan_int_part_valid s d r :
  scan_int_part s = Some (d, r) -> valid_str s = true -> valid_str r = true.
Proof.
  destruct s as [|c s]; cbn [scan_int_part]; intros H Hv; [discriminate|].
  destruct (c =? 48)%N; [injection H as <- <-; suffix_valid Hv|].
  destruct (is_digit c); [|discriminate].
  destruct (take_digits s) as [d' r'] eqn:E. injection H as <- <-.
  apply (take_digits_valid _ _ _ E). suffix_valid Hv.
Qed.

Lemma scan_frac_part_valid s d r :
  scan_frac_part s = (d, r) -> valid_str s = true -> valid_str r = true.
Proof.
  intros H Hv. destruct s as [|dot [|c s]]; cbn [scan_frac_part] in H;
    try (injection H as <- <-; assumption).
  destruct ((dot =? DOT)%N && is_digit c); [|injection H as <- <-; assumption].
  destruct (take_digits s) as [d' r'] eqn:E. injection H as <- <-.
  apply (take_digits_valid _ _ _ E). suffix_valid Hv.
Qed.

Lemma scan_exp_part_valid s x r :
  scan_exp_part s = (x, r) -> valid_str s = true -> valid_str r = true.
Proof.
  intros H Hv. destruct s as [|e s]; cbn [scan_exp_part] in H;
    [injection H as <- <-; assumption|].
  destruct ((e =? 101) || (e =? 69))%N; [|injection H as <- <-; assumption].
  destruct s as [|sg t].
  - cbn in H. injection H as <- <-. assumption.
  - destruct (sg =? MINUS)%N; [|destruct (sg =? PLUS)%N].
    + destruct (take_digits t) as [d' r'] eqn:E.
      destruct d'; injection H as <- <-; [assumption|].
      apply (take_digits_valid _ _ _ E). suffix_valid Hv.
    + destruct (take_digits t) as [d' r'] eqn:E.
      destruct d'; injection H as <- <-; [assumption|].
      apply (take_digits_valid _ _ _ E). suffix_valid Hv.
    + destruct (take_digits (sg :: t)) as [d' r'] eqn:E.
      destruct d'; injection H as <- <-; [assumption|].
      apply (take_digits_valid _ _ _ E). suffix_valid Hv.
Qed.

Lemma match_number_valid s v r :
  match_number s = Some (v, r) -> valid_str s = true ->
  sound v = true /\ valid_str r = true.
Proof.
  unfold match_number. intros H Hv.
  destruct (scan_sign s) as [neg s1] eqn:E1.
  destruct (scan_int_part s1) as [[idig s3]|] eqn:E2; [|discriminate].
  destruct (scan_frac_part s3) as [fdig s4] eqn:E3.
  destruct (scan_exp_part s4) as [exp s5] eqn:E4.
  assert (V : valid_str s5 = true).
  { apply (scan_exp_part_valid _ _ _ E4), (scan_frac_part_valid _ _ _ E3),
      (scan_int_part_valid _ _ _ E2), (scan_sign_valid _ _ _ E1), Hv. }
  destruct fdig, exp; injection H as <- <-; split; solve [reflexivity|assumption].
Qed.

Lemma skip_ws_valid_eq s c r :
  skip_ws s = c :: r -> valid_str s = true -> valid_str (c :: r) = true.
Proof. intros E H. rewrite <- E. apply skip_ws_valid. assumption. Qed.

(** The decoder builds sound values and leaves valid text. *)
Lemma scan_sound fuel :
  (forall s v r,
      scan_once fuel s = Found v r -> valid_str s = true ->
      sound v = true /\ valid_str r = true)
  /\ (forall s acc v r,
         parse_elements fuel s acc = Found v r -> valid_str s = true ->
         forallb sound acc = true ->
         sound v = true /\ valid_str r = true)
  /\ (forall s acc v r,
         parse_members fuel s acc = Found v r -> valid_str s = true ->
         sound (PyDict acc) = true ->
         sound v = true /\ valid_str r = true).
Proof.
  induction fuel as [|fuel (IHv & IHe & IHm)];
    [repeat split; intros; discriminate|].
  split; [|split].
  - intros s v r H Hv. destruct s as [|c s']; [discriminate|].
    cbn [scan_once] in H.
    pose proof (proj2 (valid_str_cons _ _ Hv)) as Hs'.
    destruct (c =? QUOTE)%N.
    { destruct (scanstring s' []) as [[w r0]|] eqn:E; [|discriminate].
      injection H as <- <-.
      destruct (scanstring_valid _ _ _ _ _ (le_n _) E Hs' eq_refl) as [Hw Hr].
      split; [|assumption]. unfold sound. cbn. rewrite Hw. reflexivity. }
    destruct (c =? LBRACE)%N.
    { destruct (skip_ws s') as [|c' r0] eqn:E; [discriminate|].
      pose proof (skip_ws_valid_eq _ _ _ E Hs') as Hr0.
      destruct (c' =? RBRACE)%N.
      - injection H as <- <-. split; [reflexivity|suffix_valid Hr0].
      - apply (IHm _ _ _ _ H Hr0). reflexivity. }
    destruct (c =? LBRACKET)%N.
    { destruct (skip_ws s') as [|c' r0] eqn:E; [discriminate|].
      pose proof (skip_ws_valid_eq _ _ _ E Hs') as Hr0.
      destruct (c' =? RBRACKET)%N.
      - injection H as <- <-. split; [reflexivity|suffix_valid Hr0].
      - apply (IHe _ _ _ _ H Hr0). reflexivity. }
    repeat match type of H with
           | context [match starts_with ?p ?t with _ => _ end] =>
               let E := fresh "E" in
               destruct (starts_with p t) as [r0|] eqn:E;
               [ injection H as <- <-; split;
                 [reflexivity | exact (starts_with_valid _ _ _ E Hv)] | ]
           end.
    destruct (match_number (c :: s')) as [[w r0]|] eqn:Em; [|discriminate].
    injection H as <- <-. exact (match_number_valid _ _ _ Em Hv).
  - intros s acc v r H Hv Ha. cbn [parse_elements] in H.
    destruct (scan_once fuel s) as [w r0| |] eqn:E; try discriminate.
    destruct (IHv _ _ _ E Hv) as [Hw Hr0].
    destruct (skip_ws r0) as [|c r1] eqn:E1; [discriminate|].
    pose proof (skip_ws_valid_eq _ _ _ E1 Hr0) as Hr1.
    destruct (c =? RBRACKET)%N.
    + injection H as <- <-. split; [|suffix_valid Hr1].
      rewrite sound_list. cbn [rev].
      rewrite forallb_app, forallb_rev. cbn [forallb]. rewrite Hw, Ha. reflexivity.
    + destruct (c =? COMMA)%N; [|discriminate].
      apply (IHe _ _ _ _ H).
      * apply skip_ws_valid. suffix_valid Hr1.
      * cbn [forallb]. rewrite Hw, Ha. reflexivity.
  - intros s acc v r H Hv Ha. cbn [parse_members] in H.
    destruct s as [|c s']; [discriminate|].
    pose proof (proj2 (valid_str_cons _ _ Hv)) as Hs'.
    destruct (c =? QUOTE)%N; [|discriminate].
    destruct (scanstring s' []) as [[key r0]|] eqn:E; [|discriminate].
    destruct (scanstring_valid _ _ _ _ _ (le_n _) E Hs' eq_refl) as [Hkey Hr0].
    destruct (skip_ws r0) as [|c' r1] eqn:E1; [discriminate|].
    pose proof (skip_ws_valid_eq _ _ _ E1 Hr0) as Hr1.
    destruct (c' =? COLON)%N; [|discriminate].
    destruct (scan_once fuel (skip_ws r1)) as [w r2| |] eqn:E2; try discriminate.
    assert (Hr1' : valid_str (skip_ws r1) = true)
      by (apply skip_ws_valid; suffix_valid Hr1).
    destruct (IHv _ _ _ E2 Hr1') as [Hw Hr2].
    cbv zeta in H.
    pose proof (sound_dict_set key w acc Hkey Hw Ha) as Ha'.
    destruct (skip_ws r2) as [|c2 r3] eqn:E3; [discriminate|].
    pose proof (skip_ws_valid_eq _ _ _ E3 Hr2) as Hr3.
    destruct (c2 =? RBRACE)%N.
    + injection H as <- <-. split; [assumption|suffix_valid Hr3].
    + destruct (c2 =? COMMA)%N; [|discriminate].
      apply (IHm _ _ _ _ H); [|assumption].
      apply skip_ws_valid. suffix_valid Hr3.
Qed.

Lemma json_loads_sound s v :
  json_loads s = Return v -> valid_str s = true -> sound v = true.
Proof.
  unfold json_loads. intros H Hv.
  destruct (scan_once (budget s) (skip_ws s)) as [w r| |] eqn:E; try discriminate.
  destruct (skip_ws r); [|discriminate]. injection H as <-.
  apply (proj1 (scan_sound (budget s)) _ _ _ E). apply skip_ws_valid. assumption.
Qed.

Lemma valid_str_skipn n : forall s,
  valid_str s = true -> valid_str (skipn n s) = true.
Proof.
  induction n as [|n IH]; intros [|c s] H; try assumption.
  cbn [skipn]. apply IH. apply (valid_str_cons _ _ H).
Qed.

Lemma valid_str_firstn n : forall s,
  valid_str s = true -> valid_str (firstn n s) = true.
Proof.
  induction n as [|n IH]; intros [|c s] H; try reflexivity.
  destruct (valid_str_cons _ _ H) as [Hc Hs].
  cbn [firstn valid_str forallb]. rewrite Hc. apply IH. assumption.
Qed.

Lemma slice_valid s i j : valid_str s = true -> valid_str (slice s i j) = true.
Proof. intro H. apply valid_str_firstn, valid_str_skipn, H. Qed.

(** What the extractor returns on a text of code points is sound. *)
Lemma safe_parse_json_sound text m :
  safe_parse_json text = Return m -> valid_str text = true -> sound m = true.
Proof.
  rewrite safe_parse_json_unfold. intros H Hv.
  destruct (json_loads text) as [v|] eqn:E.
  - injection H as <-. exact (json_loads_sound _ _ E Hv).
  - destruct (index LBRACE text) as [i|]; [|injection H as <-; reflexivity].
    destruct (rindex RBRACE text) as [j|]; [|injection H as <-; reflexivity].
    destruct (json_loads (slice text i (S j))) as [v|] eqn:E';
      injection H as <-; [|reflexivity].
    apply (json_loads_sound _ _ E'). apply slice_valid. assumption.
Qed.

(** A sound value without split pairs whose floats scan back is writable. *)
Lemma writable_of_parts repr v :
  sound v = true ->
  all_strings no_split_pair v = true ->
  all_floats (float_scans_back repr) v = true ->
  writable repr v = true.
Proof.
  induction v as [ |b|z|f|s|l IHl|d IHd] using pyval_induction;
    intros Hs Hp Hf; try reflexivity.
  - exact Hf.
  - unfold sound in Hs. cbn in *. rewrite andb_true_r in Hs. rewrite Hs, Hp.
    reflexivity.
  - rewrite sound_list in Hs. cbn [writable all_strings all_floats] in *.
    induction IHl as [|x l Hx _ IH]; [reflexivity|].
    cbn [forallb] in *.
    apply andb_prop in Hs, Hp, Hf.
    destruct Hs as [Hs1 Hs2], Hp as [Hp1 Hp2], Hf as [Hf1 Hf2].
    rewrite (Hx Hs1 Hp1 Hf1), (IH Hs2 Hp2 Hf2). reflexivity.
  - rewrite sound_dict in Hs. cbn [writable all_strings all_floats] in *.
    apply andb_prop in Hs. destruct Hs as [Hk Hs]. rewrite Hk. cbn [andb].
    clear Hk.
    induction IHd as [|[k x] d Hx _ IH]; [reflexivity|].
    cbn [forallb fst snd] in *.
    apply andb_prop in Hs, Hp, Hf.
    destruct Hs as [Hs1 Hs2], Hp as [Hp1 Hp2], Hf as [Hf1 Hf2].
    apply andb_prop in Hs1, Hp1. destruct Hs1 as [Hv Hs1], Hp1 as [Hn Hp1].
    rewrite Hv, Hn, (Hx Hs1 Hp1 Hf1), (IH Hs2 Hp2 Hf2). reflexivity.
Qed.

(** C9, amended. Extraction is idempotent under serialization on text
    whose strings keep surrogate pairs whole: for every text [t] of code
    points with [safe_parse_json t = m], if no string of [m] holds a high
    surrogate immediately followed by a low surrogate, and [float_repr]
    writes the finite floats of [m] with digits that scan back to them (as
    [float.__repr__] does), then extracting [json.dumps(m)] yields [m]
    again. *)
Theorem extraction_idempotent :
  forall (float_repr : float -> str) (text : str) (m : pyval),
    valid_str text = true ->
    safe_parse_json text = Return m ->
    all_strings no_split_pair m = true ->
    all_floats (float_scans_back float_repr) m = true ->
    safe_parse_json (json_dumps float_repr m) = Return m.
Proof.
  intros repr text m Hv H Hp Hf.
  pose proof (safe_parse_json_sound _ _ H Hv) as Hs.
  rewrite safe_parse_json_unfold,
    (loads_dumps repr m (writable_of_parts repr m Hs Hp Hf)).
  reflexivity.
Qed.

(** A prose-wrapped answer with a float, an escape and a nested array is
    extracted, serialized and extracted again to the same mapping. *)
Lemma extraction_idempotent_witness :
  safe_parse_json
    (json_dumps (fun _ => str_of "1.5")
       (PyDict [ (str_of "a", PyFloat 1.5);
                 (str_of "b", PyList [PyInt 1; PyInt (-2)]);
                 (str_of "c", PyStr [120; 233]%N) ]))
  = Return (PyDict [ (str_of "a", PyFloat 1.5);
                     (str_of "b", PyList [PyInt 1; PyInt (-2)]);
                     (str_of "c", PyStr [120; 233]%N) ]).
Proof.
  apply (extraction_idempotent (fun _ => str_of "1.5")
           (jtext "Sure: {'a': 1.5, 'b': [1, -2], 'c': 'x\u00e9'} Done."));
    vm_compute; reflexivity.
Defined.

(** C9 as stated fails on a split surrogate pair.  A string that holds the
    two halves of a surrogate pair as separate characters is written as two
    escapes, which are read back as one character: the second extraction
    differs from the first. *)
Lemma split_pair_not_idempotent :
  valid_str split_pair_text = true
  /\ safe_parse_json split_pair_text = Return split_pair_object
  /\ safe_parse_json (json_dumps no_float_repr split_pair_object)
     = Return joined_pair_object
  /\ joined_pair_object <> split_pair_object.
Proof.
  repeat split; try (vm_compute; reflexivity). discriminate.
Qed.

End RoundTrip.

(** * Provenance records *)

Lemma provenance_record_dict d :
  provenance_record (PyDict d) = Return (provenance_of d).
Proof. reflexivity. Qed.

Lemma provenance_loop_dicts ds : forall acc,
  provenance_loop (map PyDict ds) acc = Return (acc ++ map provenance_of ds).
Proof.
  induction ds as [|d ds IH]; intro acc; simpl.
  - now rewrite List.app_nil_r.
  - rewrite IH, <- List.app_assoc. reflexivity.
Qed.

Lemma provenance_loop_raises ds : forall acc,
  forallb is_dict ds = false -> provenance_loop ds acc = Raise AttributeError.
Proof.
  induction ds as [|d ds IH]; intros acc H; simpl in *; [discriminate|].
  destruct d; try reflexivity.
  simpl in H. unfold bind. rewrite provenance_record_dict. apply IH, H.
Qed.

Lemma dicts_of_forallb l :
  forallb is_dict l = true -> exists ds, l = map PyDict ds.
Proof.
  induction l as [|x l IH]; intro H; [exists []; reflexivity|].
  simpl in H. apply andb_true_iff in H. destruct H as [Hx Hl].
  destruct x; try discriminate. destruct (IH Hl) as [ds ->].
  exists (d :: ds). reflexivity.
Qed.

Lemma provenance_of_dicts ds :
  make_clause_provenance (PyList (map PyDict ds)) = Return (map provenance_of ds).
Proof.
  unfold make_clause_provenance.
  destruct ds as [|d ds]; [reflexivity|].
  cbn [truthy map py_iter bind]. apply (provenance_loop_dicts (d :: ds) []).
Qed.

Lemma provenance_of_list ds :
  forallb is_dict ds = false ->
  make_clause_provenance (PyList ds) = Raise AttributeError.
Proof.
  intro H. unfold make_clause_provenance.
  destruct ds as [|d ds]; [discriminate|].
  cbn [truthy py_iter bind]. apply provenance_loop_raises, H.
Qed.

(** The inputs on which [make_clause_provenance] returns. *)
Lemma make_clause_provenance_cases documents provs :
  make_clause_provenance documents = Return provs ->
  (truthy documents = false /\ provs = [])
  \/ exists ds, documents = PyList (map PyDict ds)
                /\ provs = map provenance_of ds.
Proof.
  intro H. destruct (truthy documents) eqn:T.
  - right. destruct documents as [|b|z|f|s|l|d].
    1-5,7: unfold make_clause_provenance in H; rewrite T in H.
    1-4: discriminate H.
    + destruct s as [|c s]; discriminate.
    + destruct d as [|[k x] d]; discriminate.
    + destruct (forallb is_dict l) eqn:F.
      * destruct (dicts_of_forallb l F) as [ds ->]. exists ds.
        split; [reflexivity|].
        rewrite provenance_of_dicts in H. now injection H.
      * rewrite (provenance_of_list l F) in H. discriminate.
  - left. split; [reflexivity|].
    unfold make_clause_provenance in H. rewrite T in H. now injection H.
Qed.

(** X1. On a list of chunks that are all dicts, [make_clause_provenance]
    returns one record per chunk, in the order of the chunks: the chunk's
    [text], [page] and [start_offset], each [None] when the chunk lacks the
    key, and nothing else of the chunk. *)
Theorem make_clause_provenance_maps :
  forall ds : list (list (str * pyval)),
    make_clause_provenance (PyList (map PyDict ds))
    = Return (map provenance_of ds).
Proof. exact provenance_of_dicts. Qed.

(** X2. On a list, [make_clause_provenance] raises [AttributeError] exactly
    when some element of the list is not a dict: one chunk without [get]
    loses the records of all the others. *)
Theorem make_clause_provenance_raises :
  forall ds : list pyval,
    make_clause_provenance (PyList ds) = Raise AttributeError
    <-> forallb is_dict ds = false.
Proof.
  intro ds. split; [|apply provenance_of_list].
  intro H. destruct (forallb is_dict ds) eqn:F; [|reflexivity].
  destruct (dicts_of_forallb ds F) as [dl ->].
  rewrite provenance_of_dicts in H. discriminate.
Qed.

(** X3. [make_clause_provenance] returns exactly on a falsy argument (None,
    zero, an empty string, list or dict), for which the result is the empty
    list, and on a list of dicts; on every other argument it raises. *)
Theorem make_clause_provenance_accepts :
  forall documents : pyval,
    ((exists provs, make_clause_provenance documents = Return provs)
     <-> (truthy documents = false
          \/ exists ds, documents = PyList (map PyDict ds)))
    /\ (truthy documents = false -> make_clause_provenance documents = Return []).
Proof.
  intro documents. split; [split|].
  - intros [provs H].
    destruct (make_clause_provenance_cases _ _ H) as [[T _]|(ds & E & _)];
      eauto.
  - intros [T|[ds ->]].
    + exists []. unfold make_clause_provenance. rewrite T. reflexivity.
    + eexists. apply provenance_of_dicts.
  - intro T. unfold make_clause_provenance. rewrite T. reflexivity.
Qed.

(** An empty dict of chunks is falsy. *)
Lemma make_clause_provenance_accepts_witness :
  make_clause_provenance (PyDict []) = Return [].
Proof.
  apply (proj2 (make_clause_provenance_accepts (PyDict []))). reflexivity.
Defined.

(** X4. The records [make_clause_provenance] returns are chunks it maps to
    themselves: applied to its own result it returns that result. *)
Theorem make_clause_provenance_idempotent :
  forall documents provs,
    make_clause_provenance documents = Return provs ->
    make_clause_provenance (PyList provs) = Return provs.
Proof.
  intros documents provs H.
  destruct (make_clause_provenance_cases _ _ H) as [[_ ->]|(ds & _ & ->)];
    [reflexivity|].
  replace (map provenance_of ds)
    with (map PyDict
            (map (fun d => [ (str_of "text", get_or_none "text" d);
                             (str_of "page", get_or_none "page" d);
                             (str_of "start_offset", get_or_none "start_offset" d) ])
                 ds))
    by (rewrite map_map; reflexivity).
  rewrite provenance_of_dicts, !map_map. reflexivity.
Qed.

(** A chunk with a page and a key of its own. *)
Lemma make_clause_provenance_idempotent_witness :
  make_clause_provenance
    (PyList [ PyDict [ (str_of "text", PyNone);
                       (str_of "page", PyInt 3);
                       (str_of "start_offset", PyNone) ] ])
  = Return [ PyDict [ (str_of "text", PyNone);
                      (str_of "page", PyInt 3);
                      (str_of "start_offset", PyNone) ] ].
Proof.
  apply (make_clause_provenance_idempotent
           (PyList [ PyDict [ (str_of "page", PyInt 3);
                              (str_of "source", PyStr (str_of "lease.pdf")) ] ])).
  reflexivity.
Defined.

(** * The rule score: letter case, context, overlapping patterns *)

Lemma lower_char_idem c : lower_char (lower_char c) = lower_char c.
Proof.
  unfold lower_char.
  destruct ((65 <=? c) && (c <=? 90))%N eqn:E; [|now rewrite E].
  apply andb_true_iff in E. destruct E as [A B].
  apply N.leb_le in A, B.
  assert (H : (c + 32 <=? 90)%N = false) by (apply N.leb_gt; lia).
  rewrite H, andb_false_r. reflexivity.
Qed.

Lemma lower_idem t : lower (lower t) = lower t.
Proof.
  unfold lower. rewrite map_map. apply map_ext. exact lower_char_idem.
Qed.

Lemma rule_score_of_lower a b :
  lower a = lower b -> rule_score_for_clause a = rule_score_for_clause b.
Proof. unfold rule_score_for_clause. intros ->. reflexivity. Qed.

(** A match stays a match when text is appended. *)
Lemma rmatch_app r x : forall s (k k' : str -> bool),
  (forall s', k s' = true -> k' (s' ++ x) = true) ->
  Re.rmatch r s k = true -> Re.rmatch r (s ++ x) k' = true.
Proof.
  induction r as [|c|r1 IH1 r2 IH2|r1 IH1 r2 IH2|r1 IH1]; intros s k k' Hk H;
    cbn [Re.rmatch] in *.
  - auto.
  - destruct s as [|y s]; [discriminate|]. simpl.
    apply andb_true_iff in H. destruct H as [-> H]. simpl. auto.
  - eapply IH1; [|exact H]. intros s' H'. cbv beta in *. eapply IH2; eauto.
  - apply orb_true_iff in H. apply orb_true_iff.
    destruct H; [left|right]; eauto.
  - apply orb_true_iff in H. apply orb_true_iff.
    destruct H; [left|right]; eauto.
Qed.

Lemma search_app_r r s x : Re.search r s = true -> Re.search r (s ++ x) = true.
Proof.
  induction s as [|c s IH]; intro H.
  - simpl in H. rewrite orb_false_r in H.
    destruct x as [|c x]; simpl.
    + now rewrite H.
    + apply orb_true_iff. left.
      apply (rmatch_app r (c :: x) [] (fun _ => true) (fun _ => true));
        [reflexivity|exact H].
  - simpl in *. apply orb_true_iff in H. apply orb_true_iff.
    destruct H as [H|H]; [left|right; auto].
    apply (rmatch_app r x (c :: s) (fun _ => true) (fun _ => true));
      [reflexivity|exact H].
Qed.

Lemma search_app_l r p s : Re.search r s = true -> Re.search r (p ++ s) = true.
Proof.
  intro H. induction p as [|c p IH]; [exact H|].
  simpl. rewrite IH. apply orb_true_r.
Qed.

(** A pattern found in a clause is found in every text around it. *)
Lemma search_context r p t s :
  Re.search r (lower t) = true -> Re.search r (lower (p ++ t ++ s)) = true.
Proof.
  intro H. unfold lower. rewrite !map_app.
  apply search_app_l, search_app_r, H.
Qed.

Lemma filter_length_mono {A} (f g : A -> bool) l :
  (forall x, f x = true -> g x = true) ->
  (List.length (filter f l) <= List.length (filter g l))%nat.
Proof.
  intro H. induction l as [|x l IH]; simpl; [lia|].
  destruct (f x) eqn:E.
  - rewrite (H x E). simpl. lia.
  - destruct (g x); simpl; lia.
Qed.

Lemma count_matches_context sev p t s :
  (count_matches sev (lower t) <= count_matches sev (lower (p ++ t ++ s)))%Z.
Proof.
  unfold count_matches. apply inj_le, filter_length_mono.
  intros r. apply search_context.
Qed.

(** The floats of the integers from 0 to 100 are ordered as the integers. *)
Lemma Z2F_leb_percent a b :
  (0 <= a <= b)%Z -> (b <= 100)%Z -> (Z2F a <=? Z2F b)%float = true.
Proof.
  intros Ha Hb.
  assert (C : forallb (fun x => forallb (fun d =>
                (Z2F (Z.of_nat x) <=? Z2F (Z.of_nat (x + d)))%float)
                (seq 0 101)) (seq 0 101) = true) by (vm_compute; reflexivity).
  rewrite forallb_forall in C.
  specialize (C (Z.to_nat a)). rewrite in_seq in C.
  assert (C' := C ltac:(lia)). clear C.
  rewrite forallb_forall in C'.
  specialize (C' (Z.to_nat (b - a))). rewrite in_seq in C'.
  assert (C := C' ltac:(lia)). clear C'.
  replace (Z.of_nat (Z.to_nat a + Z.to_nat (b - a))) with b in C by lia.
  rewrite Z2Nat.id in C by lia. exact C.
Qed.

(** X5. The rule score does not see ASCII letter case: two clause texts
    with the same lower-casing get the same score, and a text scores as its
    own lower-casing does. *)
Theorem rule_score_ignores_case :
  (forall a b : str,
      lower a = lower b -> rule_score_for_clause a = rule_score_for_clause b)
  /\ (forall t : str, rule_score_for_clause (lower t) = rule_score_for_clause t).
Proof.
  split; [exact rule_score_of_lower|].
  intro t. apply rule_score_of_lower, lower_idem.
Qed.

(** Capitals and small letters. *)
Lemma rule_score_ignores_case_witness :
  rule_score_for_clause (str_of "The Tenant WAIVES any Late Fee.")
  = rule_score_for_clause (str_of "the tenant waives any late fee.").
Proof.
  apply (proj1 rule_score_ignores_case). reflexivity.
Defined.

(** X6. Text added before or after a clause never lowers its rule score:
    every pattern found in the clause is found in the longer text, and the
    score of the longer text is at least the score of the clause. *)
Theorem rule_score_monotone_in_context :
  forall p t s : str,
    (forall sev kw, In kw (RISK_KEYWORDS sev) ->
                    Re.search kw (lower t) = true ->
                    Re.search kw (lower (p ++ t ++ s)) = true)
    /\ (rule_score_for_clause t <=? rule_score_for_clause (p ++ t ++ s))%float
       = true.
Proof.
  intros p t s. split; [intros sev kw _; apply search_context|].
  rewrite !rule_score_refines.
  pose proof (rule_score_spec_bounds t).
  pose proof (rule_score_spec_bounds (p ++ t ++ s)).
  apply Z2F_leb_percent; [|lia]. split; [lia|].
  unfold rule_score_spec.
  pose proof (count_matches_context high p t s).
  pose proof (count_matches_context medium p t s).
  lia.
Qed.

(** The sentence of the indemnification clause with text around it. *)
Lemma rule_score_monotone_in_context_witness :
  Re.search (Re.lit "arbitration")
    (lower (str_of "1. " ++ clause_indemnity ++ str_of " See annex."))
  = true.
Proof.
  apply (proj1 (rule_score_monotone_in_context
                  (str_of "1. ") clause_indemnity (str_of " See annex."))
               high).
  - vm_compute. tauto.
  - vm_compute. reflexivity.
Defined.

(** X7. The patterns of the table overlap: a text that holds the words
    "class action waiver", in any letter case, matches that pattern and the
    pattern [waiv] as well, so it scores at least 80 whatever surrounds the
    words. *)
Theorem class_action_waiver_counts_twice :
  forall p w s : str,
    lower w = str_of "class action waiver" ->
    (2 <= count_matches high (lower (p ++ w ++ s)))%Z
    /\ (80 <=? rule_score_for_clause (p ++ w ++ s))%float = true.
Proof.
  intros p w s Hw.
  assert (H : (2 <= count_matches high (lower (p ++ w ++ s)))%Z).
  { unfold count_matches. cbn [RISK_KEYWORDS filter].
    rewrite (search_context (Re.lit "waiv") p w s)
      by (rewrite Hw; vm_compute; reflexivity).
    rewrite (search_context (Re.lit "class action waiver") p w s)
      by (rewrite Hw; vm_compute; reflexivity).
    repeat match goal with
           | |- context [if ?c then _ else _] => destruct c
           end; cbn [List.length]; lia. }
  split; [exact H|].
  rewrite rule_score_refines.
  pose proof (rule_score_spec_bounds (p ++ w ++ s)) as B.
  change 80%float with (Z2F 80).
  apply Z2F_leb_percent; [|lia]. split; [lia|].
  unfold rule_score_spec in *.
  pose proof (count_matches_bounds medium (lower (p ++ w ++ s))) as M.
  lia.
Qed.

(** Title case, in a sentence. *)
Lemma class_action_waiver_counts_twice_witness :
  (2 <= count_matches high
          (lower (str_of "You agree to a " ++ str_of "Class Action Waiver"
                  ++ str_of ".")))%Z
  /\ (80 <=? rule_score_for_clause
               (str_of "You agree to a " ++ str_of "Class Action Waiver"
                ++ str_of "."))%float = true.
Proof.
  apply (class_action_waiver_counts_twice
           (str_of "You agree to a ") (str_of "Class Action Waiver")
           (str_of ".")).
  reflexivity.
Defined.

(** * The risk category: order, not-a-number, integer estimates *)

Lemma SFleb_trans x y z :
  SFleb x y = true -> SFleb y z = true -> SFleb x z = true.
Proof.
  unfold SFleb.
  destruct x as [sx|sx| |sx mx ex], y as [sy|sy| |sy my ey],
           z as [sz|sz| |sz mz ez]; simpl; try congruence;
    try destruct sx; try destruct sy; try destruct sz; simpl; try congruence.
  all: change (PosDef.Pos.compare_cont Eq) with Pos.compare.
  all: destruct (Z.compare_spec ex ey), (Z.compare_spec ey ez),
         (Z.compare_spec ex ez); try lia; simpl; try congruence.
  all: destruct (Pos.compare_spec mx my), (Pos.compare_spec my mz),
         (Pos.compare_spec mx mz); simpl; try congruence; try lia.
Qed.

Lemma int_estimate_percent n :
  (n <= 100)%nat ->
  float_of_int (Z.of_nat n) = Return (Z2F (Z.of_nat n))
  /\ risk_of_score (Z2F (Z.of_nat n)) = risk_of_int (Z.of_nat n).
Proof.
  intro H.
  do 101 (destruct n as [|n]; [split; vm_compute; reflexivity|]).
  lia.
Qed.

Section RiskOrder.
Local Open Scope float_scope.

Lemma leb_trans x y z : (x <=? y) = true -> (y <=? z) = true -> (x <=? z) = true.
Proof. rewrite !leb_spec. apply SFleb_trans. Qed.

(** Nothing is below or equal to NaN. *)
Lemma nan_leb x y : (x =? x) = false -> (y <=? x) = false.
Proof.
  rewrite leb_spec, eqb_spec. unfold SFeqb, SFleb.
  destruct (Prim2SF x) as [sx|sx| |sx mx ex] eqn:E.
  1,2,4: rewrite SFcompare_refl by congruence; congruence.
  intros _. destruct (Prim2SF y); reflexivity.
Qed.

(** X8. The risk category is monotone: a larger score never gets a lower
    category (low, medium, high in this order), whatever the two scores,
    infinite ones included. *)
Theorem risk_of_score_monotone :
  forall a b : float,
    (a <=? b) = true ->
    (risk_rank (risk_of_score a) <= risk_rank (risk_of_score b))%nat.
Proof.
  intros a b H. unfold risk_of_score.
  destruct (66 <=? a) eqn:A66.
  - rewrite (leb_trans _ _ _ A66 H). apply Nat.le_refl.
  - destruct (33 <=? a) eqn:A33.
    + rewrite (leb_trans _ _ _ A33 H).
      destruct (66 <=? b); [apply Nat.le_succ_diag_r|apply Nat.le_refl].
    + apply Nat.le_0_l.
Qed.

(** 40 is medium and 70 is high. *)
Lemma risk_of_score_monotone_witness :
  (risk_rank (risk_of_score 40) <= risk_rank (risk_of_score 70))%nat.
Proof.
  apply (risk_of_score_monotone 40 70). reflexivity.
Defined.

(** X9. A score that is not a number is categorised low: both comparisons
    of the conditional expression are false on it. *)
Theorem risk_of_nan_is_low :
  forall x : float, (x =? x) = false -> risk_of_score x = str_of "low".
Proof.
  intros x H. unfold risk_of_score. now rewrite !(nan_leb x _ H).
Qed.

Lemma risk_of_nan_is_low_witness : risk_of_score nan = str_of "low".
Proof.
  apply (risk_of_nan_is_low nan). reflexivity.
Defined.

End RiskOrder.

(** X10. A clause whose estimate is an integer from 0 to 100 is recorded
    with that number as its float score, and its category is decided by the
    integer: high from 66, medium from 33 to 65, low below 33. *)
Theorem integer_estimate_bands :
  forall (d : list (str * pyval)) (z : Z),
    dict_get (str_of "llm_score") d = Some (PyInt z) ->
    (0 <= z <= 100)%Z ->
    exists rec,
      convert_clause (PyDict d) = Return rec
      /\ field "score" rec = Some (PyFloat (Z2F z))
      /\ field "risk" rec = Some (PyStr (risk_of_int z)).
Proof.
  intros d z Hd Hz.
  destruct (int_estimate_percent (Z.to_nat z)) as [F R]; [lia|].
  rewrite Z2Nat.id in F, R by lia.
  unfold convert_clause, clause_llm_score. cbn [py_get bind]. rewrite Hd.
  cbn [py_float bind]. rewrite F. cbn [bind].
  eexists. split; [reflexivity|]. split; [reflexivity|].
  cbn [field]. simpl dict_get. rewrite R. reflexivity.
Qed.

(** An estimate of 65 is medium. *)
Lemma integer_estimate_bands_witness :
  exists rec,
    convert_clause (PyDict [ (str_of "original", PyStr (str_of "x"));
                             (str_of "llm_score", PyInt 65) ]) = Return rec
    /\ field "score" rec = Some (PyFloat (Z2F 65))
    /\ field "risk" rec = Some (PyStr (risk_of_int 65)).
Proof.
  apply (integer_estimate_bands
           [ (str_of "original", PyStr (str_of "x"));
             (str_of "llm_score", PyInt 65) ] 65).
  - reflexivity.
  - lia.
Defined.

(** * The extractor on an object wrapped in prose *)

Lemma index_app_first c p r :
  index c p = None -> index c (p ++ c :: r) = Some (List.length p).
Proof.
  induction p as [|x p IH]; simpl; intro H.
  - now rewrite N.eqb_refl.
  - destruct (x =? c)%N; [discriminate|].
    destruct (index c p); [discriminate|]. now rewrite IH.
Qed.

Lemma rindex_app_last c a s :
  rindex c s = None -> rindex c (a ++ c :: s) = Some (List.length a).
Proof.
  intro H. induction a as [|x a IH]; simpl.
  - now rewrite H, N.eqb_refl.
  - now rewrite IH.
Qed.

Lemma slice_middle (p m s : str) :
  slice (p ++ m ++ s) (List.length p) (List.length p + List.length m) = m.
Proof.
  unfold slice. rewrite skipn_app, skipn_all, Nat.sub_diag. simpl.
  replace (List.length p + List.length m - List.length p)%nat
    with (List.length m + 0)%nat by lia.
  rewrite firstn_app_2. simpl. apply List.app_nil_r.
Qed.

(** A text without an opening brace that is not JSON has no extraction;
    neither has one without a closing brace. *)
Lemma safe_parse_json_no_brace text e :
  Json.json_loads text = Raise e ->
  index Json.LBRACE text = None \/ rindex Json.RBRACE text = None ->
  safe_parse_json text = Return PyNone.
Proof.
  intros He Hb. rewrite safe_parse_json_unfold, He.
  destruct Hb as [-> | ->]; [reflexivity|].
  destruct (index _ _); reflexivity.
Qed.

(** X11. An object wrapped in prose is recovered whole: when the text
    before it holds no opening brace, the text after it holds no closing
    brace, the object by itself parses to [v] and the whole text is not
    JSON, [safe_parse_json] returns [v]. *)
Theorem wrapped_object_recovered :
  forall (p body s : str) (v : pyval) (e : exn),
    index Json.LBRACE p = None ->
    rindex Json.RBRACE s = None ->
    Json.json_loads (Json.LBRACE :: body ++ [Json.RBRACE]) = Return v ->
    Json.json_loads (p ++ (Json.LBRACE :: body ++ [Json.RBRACE]) ++ s) = Raise e ->
    safe_parse_json (p ++ (Json.LBRACE :: body ++ [Json.RBRACE]) ++ s) = Return v.
Proof.
  intros p body s v e Hp Hs Hv He.
  rewrite safe_parse_json_unfold, He.
  assert (I : index Json.LBRACE (p ++ (Json.LBRACE :: body ++ [Json.RBRACE]) ++ s)
              = Some (List.length p)).
  { cbn [app]. apply index_app_first, Hp. }
  assert (J : rindex Json.RBRACE
                (p ++ (Json.LBRACE :: body ++ [Json.RBRACE]) ++ s)
              = Some (List.length p + List.length body + 1)%nat).
  { replace (p ++ (Json.LBRACE :: body ++ [Json.RBRACE]) ++ s)
      with ((p ++ Json.LBRACE :: body) ++ Json.RBRACE :: s).
    - rewrite (rindex_app_last _ _ _ Hs), length_app. simpl. f_equal. lia.
    - rewrite <- List.app_assoc. cbn [app]. rewrite <- List.app_assoc.
      reflexivity. }
  rewrite I, J.
  replace (S (List.length p + List.length body + 1))
    with (List.length p + List.length (Json.LBRACE :: body ++ [Json.RBRACE]))%nat
    by (cbn [List.length]; rewrite length_app; simpl; lia).
  rewrite slice_middle, Hv. reflexivity.
Qed.

(** An answer with a sentence before and after the object. *)
Lemma wrapped_object_recovered_witness :
  safe_parse_json
    (str_of "Here you go: "
     ++ (Json.LBRACE :: jtext "'risk': 'low'" ++ [Json.RBRACE])
     ++ str_of " Done.")
  = Return (PyDict [ (str_of "risk", PyStr (str_of "low")) ]).
Proof.
  apply (wrapped_object_recovered
           (str_of "Here you go: ") (jtext "'risk': 'low'") (str_of " Done.")
           (PyDict [ (str_of "risk", PyStr (str_of "low")) ]) JSONDecodeError).
  - reflexivity.
  - reflexivity.
  - vm_compute. reflexivity.
  - vm_compute. reflexivity.
Defined.

(** * The summary: shape and failure paths *)

Lemma truthy_dict_get k d x : dict_get k d = Some x -> truthy (PyDict d) = true.
Proof. destruct d; [discriminate|reflexivity]. Qed.

Lemma convert_clause_shape c rec :
  convert_clause c = Return rec -> clause_shape rec.
Proof.
  unfold convert_clause, bind. intro H.
  destruct (clause_llm_score c) as [s|]; [|discriminate].
  destruct (py_get c (str_of "provenance") _); [|discriminate].
  destruct (py_get c (str_of "original") _); [|discriminate].
  destruct (py_get c (str_of "simplified") _); [|discriminate].
  injection H as <-. repeat eexists.
Qed.

Lemma convert_clauses_shape cs recs :
  convert_clauses cs [] = Return recs -> Forall clause_shape recs.
Proof.
  intro H. destruct (convert_clauses_spec _ _ _ H) as (recs' & -> & F).
  simpl. clear H. induction F; constructor; eauto using convert_clause_shape.
Qed.

(** A clause that is not a dict stops the loop over the clauses. *)
Lemma convert_clauses_raises cs : forall acc,
  forallb is_dict cs = false -> exists e, convert_clauses cs acc = Raise e.
Proof.
  induction cs as [|c cs IH]; intros acc H; simpl in H; [discriminate|].
  cbn [convert_clauses].
  destruct (convert_clause c) as [rec|e] eqn:E; cbn [bind]; [|eauto].
  destruct c; try discriminate E. simpl in H. apply IH, H.
Qed.

Ltac summary_done :=
  do 4 eexists; split; [reflexivity|constructor].

(** X12. Whatever the service answers, [summarize_document] returns a dict
    with the five keys title, summary, overall_risk_score, rag_corpus_name
    and clauses, in this order: the overall score is a float, the corpus
    name is the argument, and every clause is a record with the keys
    original, simplified, risk, score and provenance whose score is a float
    and whose risk is the category of that score. *)
Theorem summarize_document_shape :
  forall (v : vertex) (name : str),
    exists title summary overall clauses,
      summarize_document v name
      = Return (summary_record title summary overall name clauses)
      /\ Forall clause_shape clauses.
Proof.
  intros v name. unfold summarize_document, try_except, failed_summary.
  destruct (response_text v) as [r|]; cbn [bind]; [|summary_done].
  destruct (safe_parse_json _) as [p|]; cbn [bind]; [|summary_done].
  destruct (negb (truthy p)).
  - destruct (retrieval_text v); cbn [bind]; summary_done.
  - destruct (py_get p (str_of "clauses") _) as [cl|]; cbn [bind];
      [|summary_done].
    destruct (py_iter cl) as [cs|]; cbn [bind]; [|summary_done].
    destruct (convert_clauses cs []) as [recs|] eqn:E; cbn [bind];
      [|summary_done].
    destruct (py_get p (str_of "title") _); cbn [bind]; [|summary_done].
    destruct (py_get p (str_of "summary") _); cbn [bind]; [|summary_done].
    destruct (py_get p (str_of "overall_risk_score") _); cbn [bind];
      [|summary_done].
    destruct (py_float _); cbn [bind]; [|summary_done].
    do 4 eexists; split; [reflexivity|]. eapply convert_clauses_shape, E.
Qed.

(** X13. An answer whose extraction is falsy (no JSON, [null], an empty
    object or array, zero, [false], an empty string) is discarded: the
    summary is built from the text of the retrieval query, or says
    "Summary unavailable" when that text is missing or empty, with no
    title, the score 50.0 and no clause. *)
Theorem falsy_answer_falls_back :
  forall (v : vertex) (name : str) r p t,
    response_text v = Return r ->
    safe_parse_json (text_of r) = Return p ->
    truthy p = false ->
    retrieval_text v = Return t ->
    summarize_document v name
    = Return (summary_record PyNone
                (PyStr (match t with
                        | Some (c :: t') => c :: t'
                        | _ => str_of "Summary unavailable"
                        end))
                50 name []).
Proof.
  intros v name r p t Hr Hp Ht Hv. unfold summarize_document.
  rewrite Hr. cbn [bind]. rewrite response_text_of, Hp. cbn [bind].
  rewrite Ht, Hv. reflexivity.
Qed.

(** The model answers with an empty object; the retrieval has a text. *)
Lemma falsy_answer_falls_back_witness :
  summarize_document
    {| response_text := Return (Some (jtext "{}"));
       retrieval_text := Return (Some (str_of "A lease of two pages.")) |}
    corpus
  = Return (summary_record PyNone (PyStr (str_of "A lease of two pages."))
              50 corpus []).
Proof.
  apply (falsy_answer_falls_back
           {| response_text := Return (Some (jtext "{}"));
              retrieval_text := Return (Some (str_of "A lease of two pages.")) |}
           corpus (Some (jtext "{}")) (PyDict [])
           (Some (str_of "A lease of two pages."))).
  - reflexivity.
  - vm_compute. reflexivity.
  - reflexivity.
  - reflexivity.
Defined.

(** X14. One bad clause costs the whole summary: when the answer is an
    object whose [clauses] cannot be iterated (a number, [null], a boolean)
    or has an element that is not an object, the result is the failure
    summary, which keeps neither the title, the summary nor any of the
    other clauses. *)
Theorem bad_clauses_fail_summary :
  forall (v : vertex) (name : str) r d clauses,
    response_text v = Return r ->
    safe_parse_json (text_of r) = Return (PyDict d) ->
    dict_get (str_of "clauses") d = Some clauses ->
    (exists e, py_iter clauses = Raise e)
    \/ (exists cs, py_iter clauses = Return cs /\ forallb is_dict cs = false) ->
    summarize_document v name = Return (failed_summary name).
Proof.
  intros v name r d clauses Hr Hp Hc H. unfold summarize_document.
  rewrite Hr. cbn [bind]. rewrite response_text_of, Hp. cbn [bind].
  rewrite (truthy_dict_get _ _ _ Hc). cbn [negb py_get bind]. rewrite Hc.
  destruct H as [[e ->]|(cs & -> & H)]; [reflexivity|]. cbn [bind].
  destruct (convert_clauses_raises cs [] H) as [e ->]. reflexivity.
Qed.

(** A good clause followed by a number. *)
Lemma bad_clauses_fail_summary_witness :
  summarize_document
    {| response_text :=
         Return (Some (jtext
           "{'title': 'Lease', 'clauses': [{'original': 'x', 'llm_score': 10}, 7]}"));
       retrieval_text := Return None |}
    corpus
  = Return (failed_summary corpus).
Proof.
  apply (bad_clauses_fail_summary
           {| response_text :=
                Return (Some (jtext
                  "{'title': 'Lease', 'clauses': [{'original': 'x', 'llm_score': 10}, 7]}"));
              retrieval_text := Return None |}
           corpus
           (Some (jtext
              "{'title': 'Lease', 'clauses': [{'original': 'x', 'llm_score': 10}, 7]}"))
           [ (str_of "title", PyStr (str_of "Lease"));
             (str_of "clauses",
              PyList [ PyDict [ (str_of "original", PyStr (str_of "x"));
                                (str_of "llm_score", PyInt 10) ];
                       PyInt 7 ]) ]
           (PyList [ PyDict [ (str_of "original", PyStr (str_of "x"));
                              (str_of "llm_score", PyInt 10) ];
                     PyInt 7 ])).
  - reflexivity.
  - vm_compute. reflexivity.
  - reflexivity.
  - right. eexists. split; reflexivity.
Defined.

(** X15. The overall score has no guard of the kind the clause estimates
    have: when the answer is an object whose [overall_risk_score] is
    present and [float] rejects it ([null], a list, an object, a word), the
    result is the failure summary, whatever the clauses are. *)
Theorem bad_overall_score_fails_summary :
  forall (v : vertex) (name : str) r d x e,
    response_text v = Return r ->
    safe_parse_json (text_of r) = Return (PyDict d) ->
    dict_get (str_of "overall_risk_score") d = Some x ->
    py_float x = Raise e ->
    summarize_document v name = Return (failed_summary name).
Proof.
  intros v name r d x e Hr Hp Hx He. unfold summarize_document.
  rewrite Hr. cbn [bind]. rewrite response_text_of, Hp. cbn [bind].
  rewrite (truthy_dict_get _ _ _ Hx). cbn [negb py_get bind]. rewrite Hx.
  destruct (py_iter _); cbn [bind try_except]; [|reflexivity].
  destruct (convert_clauses _ _); cbn [bind try_except]; [|reflexivity].
  rewrite He. reflexivity.
Qed.

(** An overall score of [null], beside a clause without an estimate. *)
Lemma bad_overall_score_fails_summary_witness :
  summarize_document
    {| response_text :=
         Return (Some (jtext
           "{'overall_risk_score': null, 'clauses': [{'original': 'x'}]}"));
       retrieval_text := Return None |}
    corpus
  = Return (failed_summary corpus).
Proof.
  apply (bad_overall_score_fails_summary
           {| response_text :=
                Return (Some (jtext
                  "{'overall_risk_score': null, 'clauses': [{'original': 'x'}]}"));
              retrieval_text := Return None |}
           corpus
           (Some (jtext
              "{'overall_risk_score': null, 'clauses': [{'original': 'x'}]}"))
           [ (str_of "overall_risk_score", PyNone);
             (str_of "clauses",
              PyList [ PyDict [ (str_of "original", PyStr (str_of "x")) ] ]) ]
           PyNone TypeError).
  - reflexivity.
  - vm_compute. reflexivity.
  - reflexivity.
  - reflexivity.
Defined.

(** * Answering a question *)

Lemma query_rag_returns v c q :
  exists answer evidence,
    query_rag v c q = Return (answer_record answer evidence).
Proof.
  unfold query_rag, try_except, failed_answer.
  destruct (retrieved v); cbn [bind]; [|eauto].
  destruct (generated_text v); cbn [bind]; [|eauto].
  destruct (safe_parse_json _) as [p|]; cbn [bind]; [|eauto].
  destruct (truthy p).
  - destruct (py_get p (str_of "answer") _); cbn [bind]; [|eauto].
    destruct (py_get p (str_of "provenance") _); cbn [bind]; eauto.
  - match goal with |- context [bind ?m _] => destruct m end; cbn [bind]; eauto.
Qed.

(** X16. [query_rag] never raises: whatever the service does, the result is
    a dict with exactly the keys answer and evidence, in this order. *)
Theorem query_rag_total :
  forall (v : query_vertex) (rag_corpus_name question : pyval),
    exists answer evidence,
      query_rag v rag_corpus_name question
      = Return (answer_record answer evidence).
Proof. exact query_rag_returns. Qed.

(** X17. An answer that is JSON but not an object is lost: when the
    generated text extracts to a truthy value that is not a dict (a string,
    a number, [true], a non-empty array), [query_rag] returns its failure
    answer with no evidence, even though the retrieval succeeded. *)
Theorem query_rag_scalar_answer_lost :
  forall (v : query_vertex) (c q : pyval) g p,
    generated_text v = Return g ->
    safe_parse_json (text_of g) = Return p ->
    truthy p = true -> is_dict p = false ->
    query_rag v c q = Return failed_answer.
Proof.
  intros v c q g p Hg Hp Ht Hd. unfold query_rag.
  destruct (retrieved v); cbn [bind try_except]; [|reflexivity].
  rewrite Hg. cbn [bind]. rewrite response_text_of, Hp. cbn [bind]. rewrite Ht.
  destruct p; try discriminate Hd; reflexivity.
Qed.

(** The model answers with a JSON string. *)
Lemma query_rag_scalar_answer_lost_witness :
  query_rag
    {| retrieved := Return [ PyDict [ (str_of "text", PyStr (str_of "Art. 4")) ] ];
       retrieval_str := Return (str_of "Art. 4");
       generated_text := Return (Some (jtext "'Thirty days.'")) |}
    (PyStr corpus) (PyStr (str_of "What is the notice period?"))
  = Return failed_answer.
Proof.
  apply (query_rag_scalar_answer_lost
           {| retrieved :=
                Return [ PyDict [ (str_of "text", PyStr (str_of "Art. 4")) ] ];
              retrieval_str := Return (str_of "Art. 4");
              generated_text := Return (Some (jtext "'Thirty days.'")) |}
           (PyStr corpus) (PyStr (str_of "What is the notice period?"))
           (Some (jtext "'Thirty days.'")) (PyStr (str_of "Thirty days."))).
  - reflexivity.
  - vm_compute. reflexivity.
  - reflexivity.
  - reflexivity.
Defined.

(** X18. A plain-text answer is passed on as it is: when the generated
    text is not empty, is not JSON and lacks an opening or a closing brace,
    the answer is that text and the evidence is the evidence of the
    retrieval. *)
Theorem query_rag_plain_text :
  forall (v : query_vertex) (c q : pyval) ev text e,
    retrieved v = Return ev ->
    generated_text v = Return (Some text) ->
    text <> [] ->
    Json.json_loads text = Raise e ->
    index Json.LBRACE text = None \/ rindex Json.RBRACE text = None ->
    query_rag v c q = Return (answer_record (PyStr text) (PyList ev)).
Proof.
  intros v c q ev text e Hv Hg Hn He Hb. unfold query_rag.
  rewrite Hv, Hg. cbn [bind].
  destruct text as [|ch t]; [congruence|].
  rewrite (safe_parse_json_no_brace _ _ He Hb). reflexivity.
Qed.

Lemma query_rag_plain_text_witness :
  query_rag
    {| retrieved := Return [ PyDict [ (str_of "text", PyStr (str_of "Art. 4")) ] ];
       retrieval_str := Return (str_of "Art. 4");
       generated_text := Return (Some (str_of "Thirty days.")) |}
    (PyStr corpus) (PyStr (str_of "What is the notice period?"))
  = Return (answer_record
              (PyStr (str_of "Thirty days."))
              (PyList [ PyDict [ (str_of "text", PyStr (str_of "Art. 4")) ] ])).
Proof.
  apply (query_rag_plain_text
           {| retrieved :=
                Return [ PyDict [ (str_of "text", PyStr (str_of "Art. 4")) ] ];
              retrieval_str := Return (str_of "Art. 4");
              generated_text := Return (Some (str_of "Thirty days.")) |}
           (PyStr corpus) (PyStr (str_of "What is the notice period?"))
           [ PyDict [ (str_of "text", PyStr (str_of "Art. 4")) ] ]
           (str_of "Thirty days.") JSONDecodeError).
  - reflexivity.
  - reflexivity.
  - discriminate.
  - vm_compute. reflexivity.
  - left. reflexivity.
Defined.

(** X19. An empty answer is replaced by the retrieval result: when the
    generated text is missing or empty, the answer is
    [str(retrieval_result)] with the evidence of the retrieval, and the
    failure answer when taking that string raises. *)
Theorem query_rag_empty_text :
  forall (v : query_vertex) (c q : pyval) ev g,
    retrieved v = Return ev ->
    generated_text v = Return g ->
    text_of g = [] ->
    query_rag v c q
    = match retrieval_str v with
      | Return s => Return (answer_record (PyStr s) (PyList ev))
      | Raise _ => Return failed_answer
      end.
Proof.
  intros v c q ev g Hv Hg Ht. unfold query_rag.
  rewrite Hv, Hg. cbn [bind]. rewrite response_text_of, Ht.
  assert (P : safe_parse_json [] = Return PyNone) by (vm_compute; reflexivity).
  rewrite P. cbn [bind truthy]. destruct (retrieval_str v); reflexivity.
Qed.

(** The response has no text. *)
Lemma query_rag_empty_text_witness :
  query_rag
    {| retrieved := Return [ PyDict [ (str_of "text", PyStr (str_of "Art. 4")) ] ];
       retrieval_str := Return (str_of "Art. 4");
       generated_text := Return None |}
    (PyStr corpus) (PyStr (str_of "What is the notice period?"))
  = Return (answer_record
              (PyStr (str_of "Art. 4"))
              (PyList [ PyDict [ (str_of "text", PyStr (str_of "Art. 4")) ] ])).
Proof.
  apply (query_rag_empty_text
           {| retrieved :=
                Return [ PyDict [ (str_of "text", PyStr (str_of "Art. 4")) ] ];
              retrieval_str := Return (str_of "Art. 4");
              generated_text := Return None |}
           (PyStr corpus) (PyStr (str_of "What is the notice period?"))
           [ PyDict [ (str_of "text", PyStr (str_of "Art. 4")) ] ] None).
  - reflexivity.
  - reflexivity.
  - reflexivity.
Defined.

(** X20. An answer that extracts to a non-empty object is taken key by
    key, unchecked: the answer is the object's [answer], of whatever type,
    or the whole generated text when the key is missing, and the evidence is
    the object's [provenance], of whatever type, or the evidence of the
    retrieval when the key is missing. *)
Theorem query_rag_object_answer :
  forall (v : query_vertex) (c q : pyval) ev g d,
    retrieved v = Return ev ->
    generated_text v = Return g ->
    safe_parse_json (text_of g) = Return (PyDict d) ->
    d <> [] ->
    query_rag v c q
    = Return (answer_record
                (match dict_get (str_of "answer") d with
                 | Some a => a
                 | None => PyStr (text_of g)
                 end)
                (match dict_get (str_of "provenance") d with
                 | Some p => p
                 | None => PyList ev
                 end)).
Proof.
  intros v c q ev g d Hv Hg Hp Hd. unfold query_rag.
  rewrite Hv, Hg. cbn [bind]. rewrite response_text_of, Hp. cbn [bind].
  destruct d as [|kv d]; [congruence|]. reflexivity.
Qed.

(** An object with an answer and no provenance, wrapped in prose. *)
Lemma query_rag_object_answer_witness :
  query_rag
    {| retrieved := Return [ PyDict [ (str_of "text", PyStr (str_of "Art. 4")) ] ];
       retrieval_str := Return (str_of "Art. 4");
       generated_text := Return (Some (jtext "Answer: {'answer': 30}")) |}
    (PyStr corpus) (PyStr (str_of "What is the notice period?"))
  = Return (answer_record
              (PyInt 30)
              (PyList [ PyDict [ (str_of "text", PyStr (str_of "Art. 4")) ] ])).
Proof.
  apply (query_rag_object_answer
           {| retrieved :=
                Return [ PyDict [ (str_of "text", PyStr (str_of "Art. 4")) ] ];
              retrieval_str := Return (str_of "Art. 4");
              generated_text := Return (Some (jtext "Answer: {'answer': 30}")) |}
           (PyStr corpus) (PyStr (str_of "What is the notice period?"))
           [ PyDict [ (str_of "text", PyStr (str_of "Art. 4")) ] ]
           (Some (jtext "Answer: {'answer': 30}"))
           [ (str_of "answer", PyInt 30) ]).
  - reflexivity.
  - reflexivity.
  - vm_compute. reflexivity.
  - discriminate.
Defined.

(** X21. The route [query_doc] rejects a request with status 400 exactly
    when its [question] or its [rag_corpus] is missing or falsy, whatever
    the service would answer; on every other request it responds with a
    dict of the keys answer and evidence.  It raises nothing else. *)
Theorem query_doc_outcomes :
  forall (v : query_vertex) (req : list (str * pyval)),
    if truthy (get_or_none "question" req)
       && truthy (get_or_none "rag_corpus" req)
    then exists answer evidence,
           query_doc v req = Return (Responds (answer_record answer evidence))
    else query_doc v req
         = Return (HTTPException 400 (str_of "Missing rag_corpus or question")).
Proof.
  intros v req. unfold query_doc, get_or_none. cbn [py_get bind].
  destruct (truthy match dict_get (str_of "question") req with
                   | Some x => x
                   | None => PyNone
                   end); cbn [negb orb andb]; [|reflexivity].
  destruct (truthy match dict_get (str_of "rag_corpus") req with
                   | Some x => x
                   | None => PyNone
                   end); cbn [negb]; [|reflexivity].
  match goal with
  | |- context [query_rag v ?a ?b] =>
      destruct (query_rag_returns v a b) as (answer & evidence & ->)
  end.
  cbn [bind]. eauto.
Qed.
